(** * agent-mcp-v1: the tool-calling loop, the workspace guard and the tool handlers

    A shallow embedding of [src/server.ts], [src/client.ts] and [seed.ts].
    The architecture document of the repository is [docs/architecture.md].

    Strings are sequences of code units ([string]); the text handled by the
    modelled functions is taken to be ASCII, on which [toUpperCase] maps
    a..z to A..Z and [trimStart] removes the six ASCII white-space
    characters.  Everything the program reaches through a library (the file
    system, the subprocess, the HTTP client, SQLite, the model API, the MCP
    transport) is a state that is passed explicitly, or a parameter of a
    [Section]. *)

From Stdlib Require Import ZArith Lia Bool Ascii DecimalString.
From stdpp Require Import base tactics option list strings gmap.

(** ** JavaScript values that several handlers share *)

(** What an [async] function does when it settles: it returns a value, or it
    throws (the promise rejects) with the message of the error. *)
Inductive completion (A : Type) : Type :=
| Return (v : A)
| Throw (msg : string).
Arguments Return {A} v.
Arguments Throw {A} msg.

(** [String.prototype] and [Array.prototype] methods used by the sources. *)
Module Js.

(** The line feed of the template strings, and the double quote of JSON. *)
Definition nl : string := String "010"%char "".
Definition dquote : string := String "034"%char "".

(** [s.startsWith(p)] *)
Fixpoint startsWith (s p : string) {struct p} : bool :=
  match p, s with
  | "", _ => true
  | String a p', String b s' => if decide (a = b) then startsWith s' p' else false
  | String _ _, "" => false
  end.

(** White space as [trimStart] and [trim] see it, among the ASCII characters:
    tab, line feed, vertical tab, form feed, carriage return and space.
    JavaScript also counts characters outside ASCII, U+00A0 among them; a
    property that depends on this test says that its text is ASCII. *)
Definition isWhiteSpace (c : ascii) : bool :=
  let n := nat_of_ascii c in
  (n =? 9) || (n =? 10) || (n =? 11) || (n =? 12) || (n =? 13) || (n =? 32).

(** [s.trimStart()] *)
Fixpoint trimStart (s : string) : string :=
  match s with
  | "" => ""
  | String c s' => if isWhiteSpace c then trimStart s' else s
  end.

(** [s.trim()] *)
Definition trim (s : string) : string :=
  String.rev (trimStart (String.rev (trimStart s))).

(** The upper case of an ASCII character: [a] to [z] become [A] to [Z]. *)
Definition upperChar (c : ascii) : ascii :=
  let n := nat_of_ascii c in
  if (97 <=? n) && (n <=? 122) then ascii_of_nat (n - 32) else c.

(** [s.toUpperCase()] on ASCII text.  JavaScript also maps letters outside
    ASCII, some of them to ASCII capitals; a property that depends on the
    upper case says that its text is ASCII. *)
Fixpoint toUpperCase (s : string) : string :=
  match s with
  | "" => ""
  | String c s' => String (upperChar c) (toUpperCase s')
  end.

(** [s.length], a number *)
Definition length (s : string) : Z := Z.of_nat (String.length s).

(** The first [n] code units of [s], all of [s] when it has fewer. *)
Fixpoint take (n : nat) (s : string) : string :=
  match n, s with
  | S n', String c s' => String c (take n' s')
  | _, _ => ""
  end.

(** [s.slice(0, n)] for [n] not negative *)
Definition slice0 (n : Z) (s : string) : string := take (Z.to_nat n) s.

(** [xs.join(sep)] *)
Fixpoint join (sep : string) (xs : list string) : string :=
  match xs with
  | [] => ""
  | [x] => x
  | x :: rest => x +:+ sep +:+ join sep rest
  end.

(** [a || b] on strings: the empty string is the only falsy one. *)
Definition orElse (a b : string) : string :=
  if decide (a = "") then b else a.

(** Every unit of the text is an ASCII character. *)
Fixpoint isAscii (s : string) : bool :=
  match s with
  | "" => true
  | String c s' => (nat_of_ascii c <? 128) && isAscii s'
  end.

(** The decimal digits of a whole number.  This is the text that a template
    string and [JSON.stringify] give for a JavaScript number that is whole
    and at most 2^53 - 1 in size; it is used for such numbers only: the
    length of a string, the index of an array, the status of a response. *)
Definition ofNat (n : nat) : string := NilEmpty.string_of_uint (Nat.to_uint n).
Definition ofZ (z : Z) : string := NilEmpty.string_of_int (Z.to_int z).

End Js.

(** ** [node:path], POSIX flavour

    [path.resolve] is Node's: the arguments are taken from the right until an
    absolute one is met, the current directory stands in when none is, and the
    joined text goes through [normalizeString], which drops empty and [.]
    segments and lets [..] remove the segment before it. *)
Module path.

Definition sep : string := "/".

Definition isSlash (c : ascii) : bool := bool_decide (c = "/"%char).

Definition isAbsolute (p : string) : bool :=
  match p with
  | String c _ => isSlash c
  | "" => false
  end.

(** The text between the separators, in order; never the empty list. *)
Fixpoint segments (s : string) : list string :=
  match s with
  | "" => [""]
  | String c s' =>
      if isSlash c then "" :: segments s'
      else match segments s' with
           | seg :: rest => String c seg :: rest
           | [] => [String c ""]
           end
  end.

(** One separator met by [normalizeString]; [stack] holds the segments kept
    so far, the last one first. *)
Definition step (allowAboveRoot : bool) (stack : list string) (seg : string)
  : list string :=
  if bool_decide (seg = "") || bool_decide (seg = ".") then stack
  else if bool_decide (seg = "..") then
    match stack with
    | top :: below =>
        if allowAboveRoot && bool_decide (top = "..") then ".." :: stack
        else below
    | [] => if allowAboveRoot then [".."] else []
    end
  else seg :: stack.

Definition normalizeSegments (allowAboveRoot : bool) (segs : list string)
  : list string :=
  rev (fold_left (step allowAboveRoot) segs []).

Definition normalizeString (p : string) (allowAboveRoot : bool) : string :=
  Js.join sep (normalizeSegments allowAboveRoot (segments p)).

(** The loop of [resolve] over its arguments, from the last one down:
    the text gathered and whether an absolute argument was met. *)
Fixpoint gather (args : list string) : string * bool :=
  match args with
  | [] => ("", false)
  | p :: rest =>
      let '(acc, absolute) := gather rest in
      if absolute then (acc, true)
      else if bool_decide (p = "") then (acc, false)
      else (p +:+ "/" +:+ acc, isAbsolute p)
  end.

(** [path.resolve(...args)] in a process whose working directory is [cwd]. *)
Definition resolve (cwd : string) (args : list string) : string :=
  let '(resolvedPath, resolvedAbsolute) := gather (cwd :: args) in
  let normalized := normalizeString resolvedPath (negb resolvedAbsolute) in
  if resolvedAbsolute then "/" +:+ normalized
  else if bool_decide (normalized = "") then "." else normalized.

Definition endsWithSlash (p : string) : bool :=
  match String.rev p with
  | String c _ => isSlash c
  | "" => false
  end.

(** [path.normalize(p)] *)
Definition normalize (p : string) : string :=
  if bool_decide (p = "") then "."
  else
    let absolute := isAbsolute p in
    let trailing := endsWithSlash p in
    let n := normalizeString p (negb absolute) in
    if bool_decide (n = "") then
      (if absolute then "/" else if trailing then "./" else ".")
    else
      let n' := if trailing then n +:+ "/" else n in
      if absolute then "/" +:+ n' else n'.

(** [path.join(...args)] *)
Definition join (args : list string) : string :=
  match filter (λ a, a ≠ "") args with
  | [] => "."
  | parts => normalize (Js.join "/" parts)
  end.

(** The backward loop of [dirname] over the code units at the indices
    [length - 1] down to 1, given here in that order: the units before the
    separator that ends the directory part, if there is one. *)
Fixpoint dirnameScan (units : string) (matchedSlash : bool) : option string :=
  match units with
  | "" => None
  | String c units' =>
      if isSlash c then
        if matchedSlash then dirnameScan units' true else Some units'
      else dirnameScan units' false
  end.

(** [path.dirname(p)] *)
Definition dirname (p : string) : string :=
  match p with
  | "" => "."
  | String first rest =>
      let hasRoot := isSlash first in
      match dirnameScan (String.rev rest) true with
      | None => if hasRoot then "/" else "."
      | Some before =>
          if hasRoot && bool_decide (before = "") then "//"
          else String first (String.rev before)
      end
  end.

End path.

(** ** The result envelope of a tool ([CallToolResult]) *)
Module Mcp.

Record ContentItem : Type := { type : string; text : option string }.

Record CallToolResult : Type := {
  content : list ContentItem;
  isError : option bool   (* [None]: the property is absent *)
}.

(** [{ content: [{ type: "text", text }] }] *)
Definition ok_text (t : string) : CallToolResult :=
  {| content := [ {| type := "text"; text := Some t |} ]; isError := None |}.

(** [{ content: [{ type: "text", text }], isError: true }] *)
Definition error_text (t : string) : CallToolResult :=
  {| content := [ {| type := "text"; text := Some t |} ]; isError := Some true |}.

End Mcp.

(** ** src/server.ts: the workspace sandbox *)
Module Sandbox.

Section Guard.
(** [process.cwd()] *)
Variable cwd : string.

Definition WORKSPACE_DIR : string := path.resolve cwd [cwd; "workspace"].

(** [safePath(userPath)] *)
Definition safePath (userPath : string) : completion string :=
  let resolved := path.resolve cwd [WORKSPACE_DIR; userPath] in
  if negb (Js.startsWith resolved (WORKSPACE_DIR +:+ path.sep))
     && negb (bool_decide (resolved = WORKSPACE_DIR))
  then Throw ("Path escapes workspace: " +:+ userPath)
  else Return resolved.
End Guard.

End Sandbox.

(** ** [node:fs/promises] on a small file system

    A file system is a finite map from absolute paths to nodes, without
    symbolic links and without permissions.  The workspace directory itself
    exists (the database file was opened inside it before any tool is
    served), so the node at the path of a call decides how the call settles;
    the other failures modelled are an input/output error of [writeFile] and
    the refusal of [unlink], each given to the call as its [fault]. *)
Module Fs.

Inductive node : Type :=
| File (data : string)
| Dir.

Abbreviation t := (gmap string node).

(** [fs.mkdir(p, { recursive: true })]: an existing directory is fine, an
    existing file is not. *)
Definition mkdir (p : string) (fs : t) : completion unit * t :=
  match fs !! p with
  | Some (File _) => (Throw ("EEXIST: file already exists, mkdir '" +:+ p +:+ "'"), fs)
  | Some Dir => (Return (), fs)
  | None => (Return (), <[p := Dir]> fs)
  end.

(** [fs.writeFile(p, data, "utf-8")].  [fault] is an input/output error met
    after the file was opened for writing: the file is there, truncated, and
    the call throws. *)
Definition writeFile (fault : option string) (p data : string) (fs : t)
  : completion unit * t :=
  match fs !! p with
  | Some Dir =>
      (Throw ("EISDIR: illegal operation on a directory, open '" +:+ p +:+ "'"), fs)
  | _ =>
      match fault with
      | Some msg => (Throw msg, <[p := File ""]> fs)
      | None => (Return (), <[p := File data]> fs)
      end
  end.

(** [fs.unlink(p)].  [fault] is the error with which the system refuses to
    remove a file that is there, as it does with [EACCES] once the directory
    has lost its write permission: the file stays, and the call throws. *)
Definition unlink (fault : option string) (p : string) (fs : t) : completion unit * t :=
  match fs !! p with
  | Some (File _) =>
      match fault with
      | Some msg => (Throw msg, fs)
      | None => (Return (), delete p fs)
      end
  | Some Dir => (Throw ("EISDIR: illegal operation on a directory, unlink '" +:+ p +:+ "'"), fs)
  | None => (Throw ("ENOENT: no such file or directory, unlink '" +:+ p +:+ "'"), fs)
  end.

End Fs.

(** ** src/server.ts: the [write_file] tool *)
Module WriteFile.

Section Handler.
(** [process.cwd()] *)
Variable cwd : string.
(** The error, if any, that [writeFile] meets once the file is open. *)
Variable writeFault : option string.

(** The handler of [write_file]; it has no [try], so what [safePath] or the
    file system throws leaves the handler. *)
Definition write_file (filePath content : string) (fs : Fs.t)
  : completion Mcp.CallToolResult * Fs.t :=
  match Sandbox.safePath cwd filePath with
  | Throw msg => (Throw msg, fs)
  | Return resolved =>
      match Fs.mkdir (path.dirname resolved) fs with
      | (Throw msg, fs1) => (Throw msg, fs1)
      | (Return _, fs1) =>
          match Fs.writeFile writeFault resolved content fs1 with
          | (Throw msg, fs2) => (Throw msg, fs2)
          | (Return _, fs2) =>
              (Return (Mcp.ok_text ("Wrote " +:+ Js.ofZ (Js.length content)
                                    +:+ " chars to " +:+ filePath)), fs2)
          end
      end
  end.
End Handler.

End WriteFile.

(** ** src/server.ts: the [run_code] tool *)
Module RunCode.

(** How the promise of [execFileAsync] settles: the child exited with status 0
    and its two streams are at hand, or the promise rejected, the kill at the
    timeout being one of the reasons. *)
Inductive rejection : Type := NonZeroExit | SpawnFailed | TimedOut.

Inductive ExecOutcome : Type :=
| Exited (stdout stderr : string)
| Rejected (why : rejection) (message : string).

Section Handler.
(** [process.cwd()] *)
Variable cwd : string.
(** [execFileAsync(file, args, { timeout, cwd })]: the child runs on the file
    system and may change it in any way, its own script included. *)
Variable execFileAsync :
  string → list string → Z → string → Fs.t → ExecOutcome * Fs.t.
(** The error, if any, that [writeFile] meets once the file is open. *)
Variable writeFault : option string.
(** The error, if any, with which [unlink] is refused; the child can bring
    one about, by taking the write permission from the scratch directory. *)
Variable unlinkFault : option string.

Definition tmpDir : string := path.join [Sandbox.WORKSPACE_DIR cwd; ".tmp"].

(** [path.join(tmpDir, `${randomUUID()}.py`)] *)
Definition tmpFile (uuid : string) : string := path.join [tmpDir; uuid +:+ ".py"].

(** The [try] block with its [catch]: always an envelope. *)
Definition run_code_try (file code : string) (fs : Fs.t)
  : Mcp.CallToolResult * Fs.t :=
  match Fs.writeFile writeFault file code fs with
  | (Throw msg, fs1) => (Mcp.error_text ("Execution error: " +:+ msg), fs1)
  | (Return _, fs1) =>
      match execFileAsync "python3" [file] 10000%Z (Sandbox.WORKSPACE_DIR cwd) fs1 with
      | (Exited stdout stderr, fs2) =>
          let output := Js.trim (stdout +:+ stderr) in
          (Mcp.ok_text (Js.orElse output "(no output)"), fs2)
      | (Rejected _ msg, fs2) =>
          (Mcp.error_text ("Execution error: " +:+ msg), fs2)
      end
  end.

(** The handler of [run_code]; [uuid] is the value of [randomUUID()]. *)
Definition run_code (uuid code : string) (fs : Fs.t)
  : completion Mcp.CallToolResult * Fs.t :=
  match Fs.mkdir tmpDir fs with
  | (Throw msg, fs0) => (Throw msg, fs0)
  | (Return _, fs0) =>
      let file := tmpFile uuid in
      let '(result, fs1) := run_code_try file code fs0 in
      (* finally: [await fs.unlink(tmpFile).catch(() => {})] *)
      let '(_, fs2) := Fs.unlink unlinkFault file fs1 in
      (Return result, fs2)
  end.
End Handler.

End RunCode.

(** ** src/server.ts: the [fetch_url] tool *)
Module FetchUrl.

(** A [Response] of [fetch]: the three properties the handler reads, and how
    [res.text()] settles. *)
Record Response : Type := {
  ok : bool;
  status : nat;
  statusText : string;
  text : completion string
}.

Section Handler.
(** [fetch(url)] *)
Variable fetch : string → completion Response.

Definition truncationMarker : string := Js.nl +:+ "... (truncated)".

(** The handler of [fetch_url]. *)
Definition fetch_url (url : string) : completion Mcp.CallToolResult :=
  match fetch url with
  | Throw msg => Throw msg
  | Return res =>
      if negb (ok res) then
        let msg := "HTTP " +:+ Js.ofNat (status res) +:+ " " +:+ statusText res in
        Return (Mcp.error_text msg)
      else
        match text res with
        | Throw msg => Throw msg
        | Return body =>
            let body' :=
              if (Js.length body >? 5000)%Z
              then Js.slice0 5000 body +:+ truncationMarker
              else body in
            Return (Mcp.ok_text body')
        end
  end.
End Handler.

End FetchUrl.

(** ** src/server.ts: the [query_database] tool *)
Module QueryDatabase.

(** What [Statement.run()] returns: the count of [sqlite3_changes] and the
    row id of [sqlite3_last_insert_rowid], which better-sqlite3 hands over
    as JavaScript numbers. *)
Record RunResult : Type := { changes : Z; lastInsertRowid : Z }.

(** [const trimmed = sql.trimStart().toUpperCase()] *)
Definition trimmed (sql : string) : string := Js.toUpperCase (Js.trimStart sql).

(** [const isRead = trimmed.startsWith("SELECT") || ...] *)
Definition isRead (sql : string) : bool :=
  Js.startsWith (trimmed sql) "SELECT"
  || Js.startsWith (trimmed sql) "PRAGMA"
  || Js.startsWith (trimmed sql) "EXPLAIN".

Section Handler.
(** The database handle and the row mappings of better-sqlite3. *)
Variables Db Row : Type.
(** [db.prepare(sql).all()] and [db.prepare(sql).run()] *)
Variable prepare_all : string → Db → completion (list Row) * Db.
Variable prepare_run : string → Db → completion RunResult * Db.
(** [JSON.stringify(rows, null, 2)] *)
Variable stringifyRows : list Row → string.
(** [JSON.stringify({ changes: result.changes, lastInsertRowid:
    result.lastInsertRowid })], in which the two numbers are printed as
    JavaScript prints them: a row id above 2^53 comes out rounded. *)
Variable stringifyResult : RunResult → string.

(** The handler of [query_database]. *)
Definition query_database (sql : string) (db : Db) : Mcp.CallToolResult * Db :=
  if isRead sql then
    match prepare_all sql db with
    | (Return rows, db') => (Mcp.ok_text (stringifyRows rows), db')
    | (Throw msg, db') => (Mcp.error_text ("SQL Error: " +:+ msg), db')
    end
  else
    match prepare_run sql db with
    | (Return result, db') => (Mcp.ok_text (stringifyResult result), db')
    | (Throw msg, db') => (Mcp.error_text ("SQL Error: " +:+ msg), db')
    end.
End Handler.

End QueryDatabase.

(** ** seed.ts: [seedDatabase]

    The two tables as SQLite keeps them: the rows in insertion order and, for
    the [AUTOINCREMENT] key, the entry of [sqlite_sequence].  A table named
    [books] or [users] that is already there has the columns of the
    [CREATE TABLE] statements, and nothing in the database reacts to an
    insert: [SeedTriggers], below, has the databases with triggers. *)
Module Seed.

Record Book : Type := {
  book_id : Z; title : string; author : string;
  year : option Z; genre : option string
}.

Record User : Type := {
  user_id : Z; name : string; email : string; favorite_genre : option string
}.

Record Table (R : Type) : Type := { rows : list R; seq : Z }.
Arguments rows {R} _.
Arguments seq {R} _.

Record Database : Type := {
  books : option (Table Book);
  users : option (Table User)
}.

Definition emptyTable {R : Type} : Table R := {| rows := []; seq := 0 |}.

(** The largest row id SQLite can hand out. *)
Definition MAX_ROWID : Z := 9223372036854775807.

(** The largest id the table has ever held. *)
Definition largest {R : Type} (rowid : R → Z) (t : Table R) : Z :=
  foldr Z.max (seq t) (rowid <$> rows t).

(** [insert.run(...row)] on an [AUTOINCREMENT] table: the new id is one more
    than the largest ever held; [None] is SQLITE_FULL, when that was the last
    id there is. *)
Definition insert {R : Type} (rowid : R → Z) (mk : Z → R) (t : Table R)
  : option (Table R) :=
  let top := largest rowid t in
  if (top >=? MAX_ROWID)%Z then None
  else Some {| rows := rows t ++ [mk (top + 1)%Z]; seq := (top + 1)%Z |}.

(** [for (const row of rows) insert.run(...row)] *)
Fixpoint insertMany {R : Type} (rowid : R → Z) (mks : list (Z → R)) (t : Table R)
  : option (Table R) :=
  match mks with
  | [] => Some t
  | mk :: rest =>
      match insert rowid mk t with
      | Some t' => insertMany rowid rest t'
      | None => None
      end
  end.

(** [db.transaction(f)(...)]: all of [f], or none of it and the error. *)
Definition transaction {T : Type} (f : T → option T) (t : T) : completion unit * T :=
  match f t with
  | Some t' => (Return (), t')
  | None => (Throw "database or disk is full", t)
  end.

Definition book (t a : string) (y : Z) (g : string) (id : Z) : Book :=
  {| book_id := id; title := t; author := a; year := Some y; genre := Some g |}.

Definition user (n e g : string) (id : Z) : User :=
  {| user_id := id; name := n; email := e; favorite_genre := Some g |}.

Definition seedBooks : list (Z → Book) := [
  book "To Kill a Mockingbird" "Harper Lee" 1960 "Fiction";
  book "1984" "George Orwell" 1949 "Dystopian";
  book "The Great Gatsby" "F. Scott Fitzgerald" 1925 "Fiction";
  book "Neuromancer" "William Gibson" 1984 "Science Fiction";
  book "The Hobbit" "J.R.R. Tolkien" 1937 "Fantasy";
  book "Pride and Prejudice" "Jane Austen" 1813 "Romance";
  book "The Left Hand of Darkness" "Ursula K. Le Guin" 1969 "Science Fiction";
  book "Brave New World" "Aldous Huxley" 1932 "Dystopian" ].

Definition seedUsers : list (Z → User) := [
  user "Alice Johnson" "alice@example.com" "Science Fiction";
  user "Bob Smith" "bob@example.com" "Fiction";
  user "Carol Williams" "carol@example.com" "Fantasy";
  user "Dave Brown" "dave@example.com" "Dystopian";
  user "Eve Davis" "eve@example.com" "Romance" ].

(** [CREATE TABLE IF NOT EXISTS] *)
Definition createIfNotExists {R : Type} (t : option (Table R)) : Table R :=
  default emptyTable t.

(** [if (count === 0) insertMany(seed)] on one table *)
Definition seedTable {R : Type} (rowid : R → Z) (seed : list (Z → R)) (t : Table R)
  : completion unit * Table R :=
  if decide (length (rows t) = 0) then transaction (insertMany rowid seed) t
  else (Return (), t).

(** [seedDatabase(db)] *)
Definition seedDatabase (db : Database) : completion unit * Database :=
  let bt := createIfNotExists (books db) in
  let ut := createIfNotExists (users db) in
  match seedTable book_id seedBooks bt with
  | (Throw msg, bt') => (Throw msg, {| books := Some bt'; users := Some ut |})
  | (Return _, bt') =>
      match seedTable user_id seedUsers ut with
      | (Throw msg, ut') => (Throw msg, {| books := Some bt'; users := Some ut' |})
      | (Return _, ut') => (Return (), {| books := Some bt'; users := Some ut' |})
      end
  end.

End Seed.

(** ** seed.ts on a database that has triggers

    [Seed.Database] is a database in which nothing reacts to an insert.  A
    database can also hold [AFTER INSERT] triggers on its tables, which one
    [CREATE TRIGGER] through [query_database] puts there; SQLite runs the
    body of such a trigger after each row that [insert.run] adds, inside the
    transaction.  Here the body is given by what it does to the tables. *)
Module SeedTriggers.
Import Seed.

Record Database : Type := {
  data : Seed.Database;
  (** the trigger on [books], if any: the new row, then the tables *)
  booksTrigger : option (Book → Seed.Database → Seed.Database);
  usersTrigger : option (User → Seed.Database → Seed.Database)
}.

(** The tables after the body of the trigger has run for the row [r]. *)
Definition fire {R : Type} (trigger : option (R → Seed.Database → Seed.Database))
    (r : R) (db : Seed.Database) : Seed.Database :=
  match trigger with
  | Some body => body r db
  | None => db
  end.

(** [insert.run(...row)] on [books], and then its trigger. *)
Definition insertBook (trigger : option (Book → Seed.Database → Seed.Database))
    (mk : Z → Book) (db : Seed.Database) : option Seed.Database :=
  let t := createIfNotExists (books db) in
  match insert book_id mk t with
  | None => None
  | Some t' =>
      Some (fire trigger (mk (largest book_id t + 1)%Z)
              {| books := Some t'; users := users db |})
  end.

Definition insertUser (trigger : option (User → Seed.Database → Seed.Database))
    (mk : Z → User) (db : Seed.Database) : option Seed.Database :=
  let t := createIfNotExists (users db) in
  match insert user_id mk t with
  | None => None
  | Some t' =>
      Some (fire trigger (mk (largest user_id t + 1)%Z)
              {| books := books db; users := Some t' |})
  end.

(** [for (const row of rows) insert.run(...row)] *)
Fixpoint insertEach {R : Type} (insertOne : (Z → R) → Seed.Database → option Seed.Database)
    (mks : list (Z → R)) (db : Seed.Database) : option Seed.Database :=
  match mks with
  | [] => Some db
  | mk :: rest =>
      match insertOne mk db with
      | Some db' => insertEach insertOne rest db'
      | None => None
      end
  end.

(** [seedDatabase(db)] *)
Definition seedDatabase (d : Database) : completion unit * Database :=
  let keep (out : completion unit) (db : Seed.Database) :=
    (out, {| data := db; booksTrigger := booksTrigger d;
             usersTrigger := usersTrigger d |}) in
  let db0 := {| books := Some (createIfNotExists (books (data d)));
                users := Some (createIfNotExists (users (data d))) |} in
  let '(out1, db1) :=
    if decide (length (rows (createIfNotExists (books db0))) = 0)
    then transaction (insertEach (insertBook (booksTrigger d)) seedBooks) db0
    else (Return (), db0) in
  match out1 with
  | Throw msg => keep (Throw msg) db1
  | Return _ =>
      let '(out2, db2) :=
        if decide (length (rows (createIfNotExists (users db1))) = 0)
        then transaction (insertEach (insertUser (usersTrigger d)) seedUsers) db1
        else (Return (), db1) in
      keep out2 db2
  end.

End SeedTriggers.

(** ** src/client.ts: the agent loop

    The model API and the MCP client are reached through [create] and
    [callTool]; both act on a [World] that is passed along, and both may
    throw.  The loop keeps, next to the conversation, the [trace] of the
    calls it made, in the order it made them. *)
Module Agent.

Section Loop.
(** The JSON value of [toolUse.input]. *)
Variable Json : Type.

Record ToolUse : Type := { id : string; name : string; input : Json }.

(** A block of [response.content]; [OtherBlock] stands for the block types
    other than [text] and [tool_use]. *)
Inductive ContentBlock : Type :=
| TextBlock (text : string)
| ToolUseBlock (u : ToolUse)
| OtherBlock (type : string).

Record ToolResultBlockParam : Type := {
  tool_use_id : string;
  content : string;
  is_error : bool
}.

(** An entry of [messages]. *)
Inductive MessageParam : Type :=
| UserText (text : string)
| AssistantTurn (blocks : list ContentBlock)
| ToolResults (results : list ToolResultBlockParam).

(** What [anthropic.messages.create] resolves to. *)
Record Message : Type := {
  blocks : list ContentBlock;
  stop_reason : option string
}.

Variable World : Type.
(** [anthropic.messages.create({ ..., messages })] *)
Variable create : list MessageParam → World → completion Message * World.
(** [mcpClient.callTool({ name, arguments })] *)
Variable callTool : string → Json → World → completion Mcp.CallToolResult * World.

Inductive Event : Type :=
| OracleCall (messages : list MessageParam)
| ToolCall (name : string) (arguments : Json).

Record State : Type := {
  messages : list MessageParam;
  world : World;
  trace : list Event
}.

(** [response.content.filter(b => b.type === "text").map(b => b.text)] *)
Definition textBlocks (bs : list ContentBlock) : list string :=
  omap (λ b, match b with TextBlock t => Some t | _ => None end) bs.

(** [response.content.filter(b => b.type === "tool_use")] *)
Definition toolUseBlocks (bs : list ContentBlock) : list ToolUse :=
  omap (λ b, match b with ToolUseBlock u => Some u | _ => None end) bs.

(** [contentArr.filter(c => c.type === "text").map(c => c.text ?? "").join("\n")] *)
Definition resultText (result : Mcp.CallToolResult) : string :=
  Js.join Js.nl
    ((λ c, default "" (Mcp.text c))
       <$> filter (λ c, Mcp.type c = "text") (Mcp.content result)).

(** The entry pushed on [toolResults] for one call. *)
Definition toolResult (u : ToolUse) (result : Mcp.CallToolResult)
  : ToolResultBlockParam :=
  {| tool_use_id := id u;
     content := resultText result;
     is_error := bool_decide (Mcp.isError result = Some true) |}.

(** [for (const toolUse of toolUseBlocks) { ... toolResults.push(...) }] *)
Fixpoint dispatch (toolUses : list ToolUse) (toolResults : list ToolResultBlockParam)
    (w : World) (tr : list Event)
  : completion (list ToolResultBlockParam) * World * list Event :=
  match toolUses with
  | [] => (Return toolResults, w, tr)
  | u :: rest =>
      let tr' := tr ++ [ToolCall (name u) (input u)] in
      match callTool (name u) (input u) w with
      | (Throw msg, w') => (Throw msg, w', tr')
      | (Return result, w') =>
          dispatch rest (toolResults ++ [toolResult u result]) w' tr'
      end
  end.

Definition MAX_ITERATIONS : nat := 10.

(** The [for] loop of [processQuery] with [remaining = MAX_ITERATIONS - i]
    iterations to go, and the [return] after it. *)
Fixpoint iterate (remaining : nat) (st : State) : completion string * State :=
  match remaining with
  | 0 => (Return "(reached max iterations)", st)
  | S remaining' =>
      let tr := trace st ++ [OracleCall (messages st)] in
      match create (messages st) (world st) with
      | (Throw msg, w) =>
          (Throw msg, {| messages := messages st; world := w; trace := tr |})
      | (Return response, w) =>
          let texts := textBlocks (blocks response) in
          if decide (stop_reason response = Some "end_turn") then
            (Return (Js.orElse (Js.join Js.nl texts) "(no text response)"),
             {| messages := messages st; world := w; trace := tr |})
          else if decide (stop_reason response = Some "tool_use") then
            let msgs := messages st ++ [AssistantTurn (blocks response)] in
            match dispatch (toolUseBlocks (blocks response)) [] w tr with
            | (Throw msg, w', tr') =>
                (Throw msg, {| messages := msgs; world := w'; trace := tr' |})
            | (Return toolResults, w', tr') =>
                iterate remaining'
                  {| messages := msgs ++ [ToolResults toolResults];
                     world := w'; trace := tr' |}
            end
          else
            (Return (Js.orElse (Js.join Js.nl texts) "(unexpected stop)"),
             {| messages := messages st; world := w; trace := tr |})
      end
  end.

(** [processQuery(userQuery)]: the answer, and the state the loop ended in. *)
Definition processQuery (userQuery : string) (w : World) : completion string * State :=
  iterate MAX_ITERATIONS
    {| messages := [UserText userQuery]; world := w; trace := [] |}.

End Loop.

Arguments TextBlock {Json} text.
Arguments ToolUseBlock {Json} u.
Arguments OtherBlock {Json} type.
Arguments UserText {Json} text.
Arguments AssistantTurn {Json} blocks.
Arguments ToolResults {Json} results.
Arguments OracleCall {Json} messages.
Arguments ToolCall {Json} name arguments.
Arguments id {Json} _.
Arguments name {Json} _.
Arguments input {Json} _.
Arguments blocks {Json} _.
Arguments stop_reason {Json} _.
Arguments messages {Json World} _.
Arguments world {Json World} _.
Arguments trace {Json World} _.
Arguments textBlocks {Json} bs.
Arguments toolUseBlocks {Json} bs.
Arguments toolResult {Json} u result.
Arguments dispatch {Json World} callTool toolUses toolResults w tr.
Arguments iterate {Json World} create callTool remaining st.
Arguments processQuery {Json World} create callTool userQuery w.

End Agent.

(** ** Mocked collaborators for the scenarios of the design document *)
Module Scenario.

(** An oracle that replays a script of responses, one per call. *)
Definition scripted (Json : Type) (_ : list (Agent.MessageParam Json))
    (script : list (Agent.Message Json))
  : completion (Agent.Message Json) * list (Agent.Message Json) :=
  match script with
  | response :: rest => (Return response, rest)
  | [] => (Throw "script exhausted", [])
  end.

(** A store whose [run] reports one changed row and the row id 9. *)
Definition reportingStore (_ : string) (db : unit)
  : completion QueryDatabase.RunResult * unit :=
  (Return {| QueryDatabase.changes := 1; QueryDatabase.lastInsertRowid := 9 |}, db).

Definition emptyStore (_ : string) (db : unit) : completion (list unit) * unit :=
  (Return [], db).

(** [JSON.stringify] of the object made of a result whose two numbers are
    whole and at most 2^53 - 1 in size, as those of the scenarios are. *)
Definition stringifyRunResult (r : QueryDatabase.RunResult) : string :=
  "{" +:+ Js.dquote +:+ "changes" +:+ Js.dquote +:+ ":"
  +:+ Js.ofZ (QueryDatabase.changes r)
  +:+ "," +:+ Js.dquote +:+ "lastInsertRowid" +:+ Js.dquote +:+ ":"
  +:+ Js.ofZ (QueryDatabase.lastInsertRowid r) +:+ "}".

(** The server side of the scenarios: [query_database] on the store above;
    the input of a tool use is its [sql] argument. *)
Definition serve {W : Type} (name sql : string) (w : W)
  : completion Mcp.CallToolResult * W :=
  if decide (name = "query_database") then
    (Return (QueryDatabase.query_database unit unit emptyStore reportingStore
               (λ _, "[]") stringifyRunResult sql ()).1, w)
  else (Return (Mcp.error_text ("Unknown tool: " +:+ name)), w).

(** A store that, as [prepare] of better-sqlite3 does, refuses a text that
    has something other than white space after the semicolon that ends its
    first statement; the texts of the scenarios have no semicolon inside a
    string or a comment. *)
Fixpoint afterFirstStatement (sql : string) : string :=
  match sql with
  | "" => ""
  | String c rest => if bool_decide (c = ";"%char) then rest else afterFirstStatement rest
  end.

Definition oneStatementStore (sql : string) (db : unit)
  : completion QueryDatabase.RunResult * unit :=
  if decide (Js.trimStart (afterFirstStatement sql) = "") then reportingStore sql db
  else (Throw "The supplied SQL string contains more than one statement", db).

(** A store that counts the rows of [books]: [run] adds a row and reports
    its id, [all] returns the one row of [SELECT COUNT(id) AS cnt FROM books]. *)
Definition countingRun (_ : string) (rows : Z)
  : completion QueryDatabase.RunResult * Z :=
  (Return {| QueryDatabase.changes := 1;
             QueryDatabase.lastInsertRowid := rows + 1 |}, (rows + 1)%Z).

Definition countingAll (_ : string) (rows : Z) : completion (list Z) * Z :=
  (Return [rows], rows).

(** [JSON.stringify(rows, null, 2)] for rows that have the one column
    [cnt], a whole number at most 2^53 - 1 in size. *)
Definition stringifyCounts (rows : list Z) : string :=
  match rows with
  | [] => "[]"
  | _ =>
      "[" +:+ Js.nl
      +:+ Js.join ("," +:+ Js.nl)
            ((λ n, "  {" +:+ Js.nl +:+ "    " +:+ Js.dquote +:+ "cnt" +:+ Js.dquote
                   +:+ ": " +:+ Js.ofZ n +:+ Js.nl +:+ "  }") <$> rows)
      +:+ Js.nl +:+ "]"
  end.

(** The two collaborators on one world: the script that is left, and the
    number of rows of [books]. *)
Definition scriptedOracle (_ : list (Agent.MessageParam string))
    (w : list (Agent.Message string) * Z)
  : completion (Agent.Message string) * (list (Agent.Message string) * Z) :=
  match w.1 with
  | response :: rest => (Return response, (rest, w.2))
  | [] => (Throw "script exhausted", w)
  end.

Definition countingServer (name sql : string) (w : list (Agent.Message string) * Z)
  : completion Mcp.CallToolResult * (list (Agent.Message string) * Z) :=
  if decide (name = "query_database") then
    let '(envelope, rows) :=
      QueryDatabase.query_database Z Z countingAll countingRun
        stringifyCounts stringifyRunResult sql w.2 in
    (Return envelope, (w.1, rows))
  else (Return (Mcp.error_text ("Unknown tool: " +:+ name)), w).

Definition insertDune : Agent.ToolUse string :=
  {| Agent.id := "toolu_01"; Agent.name := "query_database";
     Agent.input := "INSERT INTO books(title) VALUES ('Dune')" |}.

Definition duneScript : list (Agent.Message string) := [
  {| Agent.blocks := [Agent.ToolUseBlock insertDune];
     Agent.stop_reason := Some "tool_use" |};
  {| Agent.blocks := [Agent.TextBlock "Added Dune."];
     Agent.stop_reason := Some "end_turn" |} ].

Definition countBooks : Agent.ToolUse string :=
  {| Agent.id := "toolu_02"; Agent.name := "query_database";
     Agent.input := "SELECT COUNT(id) AS cnt FROM books" |}.

(** A turn with two requests, the second of which sees what the first did. *)
Definition addAndCountScript : list (Agent.Message string) := [
  {| Agent.blocks := [Agent.TextBlock "Adding Dune.";
                      Agent.ToolUseBlock insertDune;
                      Agent.ToolUseBlock countBooks];
     Agent.stop_reason := Some "tool_use" |};
  {| Agent.blocks := [Agent.TextBlock "Added Dune; there are 9 books."];
     Agent.stop_reason := Some "end_turn" |} ].

(** An oracle that asks for a tool on every call and never stops. *)
Definition relentless (_ : list (Agent.MessageParam string)) (calls : nat)
  : completion (Agent.Message string) * nat :=
  (Return {| Agent.blocks := [Agent.ToolUseBlock insertDune];
             Agent.stop_reason := Some "tool_use" |}, S calls).

(** The body of
    [CREATE TRIGGER t AFTER INSERT ON books BEGIN DELETE FROM books WHERE id = NEW.id; END]. *)
Definition deleteNewBook (r : Seed.Book) (db : Seed.Database) : Seed.Database :=
  {| Seed.books :=
       (λ t, {| Seed.rows := filter (λ b, Seed.book_id b ≠ Seed.book_id r)
                               (Seed.rows t);
                Seed.seq := Seed.seq t |}) <$> Seed.books db;
     Seed.users := Seed.users db |}.

(** A database that was seeded once, on which that trigger was then created
    and whose books were deleted. *)
Definition emptied : SeedTriggers.Database :=
  {| SeedTriggers.data :=
       {| Seed.books := Some {| Seed.rows := []; Seed.seq := 8 |};
          Seed.users := Seed.users (Seed.seedDatabase
                                      {| Seed.books := None;
                                         Seed.users := None |}).2 |};
     SeedTriggers.booksTrigger := Some deleteNewBook;
     SeedTriggers.usersTrigger := None |}.

(** The file system of a server started in [/srv/app], before any tool ran. *)
Definition started : Fs.t := {[ "/srv/app/workspace" := Fs.Dir ]}.

(** A child that is killed at the timeout, and one that prints and exits;
    neither touches the file system.  The message of the first is the one
    of [execFile]: the command, a line feed, and what the child wrote on its
    error stream, here nothing. *)
Definition hangs (file : string) (args : list string) (_ : Z) (_ : string)
    (fs : Fs.t) : RunCode.ExecOutcome * Fs.t :=
  (RunCode.Rejected RunCode.TimedOut
     ("Command failed: " +:+ file +:+ " " +:+ Js.join " " args +:+ Js.nl), fs).

Definition prints (out : string) (_ : string) (_ : list string) (_ : Z)
    (_ : string) (fs : Fs.t) : RunCode.ExecOutcome * Fs.t :=
  (RunCode.Exited out "", fs).

(** A body of [n] characters, and a server that answers every URL with it. *)
Fixpoint filler (n : nat) : string :=
  match n with
  | 0 => ""
  | S n' => String "x"%char (filler n')
  end.

Definition answering (status : nat) (statusText body : string) (_ : string)
  : completion FetchUrl.Response :=
  Return {| FetchUrl.ok := (200 <=? status) && (status <=? 299);
            FetchUrl.status := status;
            FetchUrl.statusText := statusText;
            FetchUrl.text := Return body |}.

End Scenario.

(** ** src/server.ts: the [read_file] and [list_directory] tools *)
Module Files.

(** [fs.readFile(p, "utf-8")] *)
Definition readFile (p : string) (fs : Fs.t) : completion string :=
  match fs !! p with
  | Some (Fs.File data) => Return data
  | Some Fs.Dir => Throw "EISDIR: illegal operation on a directory, read"
  | None => Throw ("ENOENT: no such file or directory, open '" +:+ p +:+ "'")
  end.

(** A [Dirent] of [readdir(..., { withFileTypes: true })]. *)
Record Dirent : Type := { name : string; isDirectory : bool }.

Section Handlers.
(** [process.cwd()] *)
Variable cwd : string.
(** [fs.readdir(p, { withFileTypes: true })]: the entries in the order the
    platform gives them. *)
Variable readdir : string → Fs.t → completion (list Dirent).

(** The handler of [read_file]. *)
Definition read_file (filePath : string) (fs : Fs.t) : completion Mcp.CallToolResult :=
  match Sandbox.safePath cwd filePath with
  | Throw msg => Throw msg
  | Return resolved =>
      match readFile resolved fs with
      | Throw msg => Throw msg
      | Return content => Return (Mcp.ok_text content)
      end
  end.

(** [`${e.isDirectory() ? "[dir]" : "[file]"} ${e.name}`] *)
Definition entryLine (e : Dirent) : string :=
  (if isDirectory e then "[dir]" else "[file]") +:+ " " +:+ name e.

(** The handler of [list_directory]; [None] is an omitted [path]. *)
Definition list_directory (dirPath : option string) (fs : Fs.t)
  : completion Mcp.CallToolResult :=
  let rel := default "." dirPath in
  match Sandbox.safePath cwd rel with
  | Throw msg => Throw msg
  | Return resolved =>
      match readdir resolved fs with
      | Throw msg => Throw msg
      | Return entries =>
          let listing := Js.join Js.nl (entryLine <$> entries) in
          Return (Mcp.ok_text (Js.orElse listing "(empty directory)"))
      end
  end.
End Handlers.

End Files.

(** ** More of JavaScript: lower case and [encodeURIComponent] *)
Module JsText.

Definition lowerChar (c : ascii) : ascii :=
  let n := nat_of_ascii c in
  if (65 <=? n) && (n <=? 90) then ascii_of_nat (n + 32) else c.

(** [s.toLowerCase()] *)
Fixpoint toLowerCase (s : string) : string :=
  match s with
  | "" => ""
  | String c s' => String (lowerChar c) (toLowerCase s')
  end.

(** The characters [encodeURIComponent] leaves as they are: letters, digits
    and [- _ . ! ~ * ' ( )]. *)
Definition isUnreserved (c : ascii) : bool :=
  let n := nat_of_ascii c in
  ((48 <=? n) && (n <=? 57)) || ((65 <=? n) && (n <=? 90))
  || ((97 <=? n) && (n <=? 122))
  || (n =? 45) || (n =? 95) || (n =? 46) || (n =? 33) || (n =? 126)
  || (n =? 42) || (n =? 39) || (n =? 40) || (n =? 41).

Definition hexDigit (n : nat) : ascii :=
  if n <? 10 then ascii_of_nat (48 + n) else ascii_of_nat (55 + n).

(** A percent sign and the two upper-case hexadecimal digits of the unit. *)
Definition percentEncode (c : ascii) : string :=
  let n := nat_of_ascii c in
  String "%"%char (String (hexDigit (n / 16)) (String (hexDigit (n mod 16)) "")).

(** [encodeURIComponent(s)], on the UTF-8 bytes of [s]: a byte that is not
    unreserved becomes its escape. *)
Fixpoint encodeURIComponent (s : string) : string :=
  match s with
  | "" => ""
  | String c s' =>
      (if isUnreserved c then String c "" else percentEncode c)
      +:+ encodeURIComponent s'
  end.

End JsText.

(** ** src/server.ts: the tools that call remote services

    [fetch] acts on the state of the network, which is passed along; a
    response carries what the handlers read of it. *)
Module Remote.

(** A [Response] whose body is read with [res.json()]. *)
Record JsonResponse (Data : Type) : Type := {
  ok : bool;
  status : nat;
  statusText : string;
  json : completion Data
}.
Arguments ok {Data} _.
Arguments status {Data} _.
Arguments statusText {Data} _.
Arguments json {Data} _.

End Remote.

(** *** [get_weather] *)
Module Weather.

Section Handler.
Variable Net : Type.
(** [fetch(url)] *)
Variable fetch : string → Net → completion FetchUrl.Response * Net.

(** [`https://wttr.in/${encodeURIComponent(city)}?format=3`] *)
Definition weatherUrl (city : string) : string :=
  "https://wttr.in/" +:+ JsText.encodeURIComponent city +:+ "?format=3".

(** The handler of [get_weather]; it does not look at [res.ok]. *)
Definition get_weather (city : string) (net : Net)
  : completion Mcp.CallToolResult * Net :=
  match fetch (weatherUrl city) net with
  | (Throw msg, net') => (Throw msg, net')
  | (Return res, net') =>
      match FetchUrl.text res with
      | Throw msg => (Throw msg, net')
      | Return text => (Return (Mcp.ok_text (Js.trim text)), net')
      end
  end.
End Handler.

End Weather.

(** *** [get_sports_scores] *)
Module Sports.

Record Endpoint : Type := { category : string; league : string }.

Definition SPORT_ENDPOINTS : list (string * Endpoint) := [
  ("nfl", {| category := "football"; league := "nfl" |});
  ("nba", {| category := "basketball"; league := "nba" |});
  ("mlb", {| category := "baseball"; league := "mlb" |});
  ("nhl", {| category := "hockey"; league := "nhl" |});
  ("mls", {| category := "soccer"; league := "usa.1" |});
  ("epl", {| category := "soccer"; league := "eng.1" |});
  ("ncaam", {| category := "basketball"; league := "mens-college-basketball" |});
  ("ncaaw", {| category := "basketball"; league := "womens-college-basketball" |});
  ("ncaaf", {| category := "football"; league := "college-football" |});
  ("wnba", {| category := "basketball"; league := "wnba" |});
  ("champions", {| category := "soccer"; league := "uefa.champions" |});
  ("fifa", {| category := "soccer"; league := "fifa.world" |});
  ("nwsl", {| category := "soccer"; league := "usa.nwsl" |});
  ("f1", {| category := "racing"; league := "f1" |});
  ("pga", {| category := "golf"; league := "pga" |});
  ("atp", {| category := "tennis"; league := "atp" |});
  ("wta", {| category := "tennis"; league := "wta" |}) ].

(** [Object.keys(SPORT_ENDPOINTS)] *)
Definition keys : list string := fst <$> SPORT_ENDPOINTS.

(** The property names that an object literal inherits from
    [Object.prototype]. *)
Definition objectPrototypeNames : list string := [
  "constructor"; "__defineGetter__"; "__defineSetter__"; "hasOwnProperty";
  "__lookupGetter__"; "__lookupSetter__"; "isPrototypeOf";
  "propertyIsEnumerable"; "toString"; "valueOf"; "__proto__";
  "toLocaleString" ].

(** What [SPORT_ENDPOINTS[key]] evaluates to when it is not [undefined]: an
    entry of the table, or an inherited value, which is truthy and has
    neither a [category] nor a [league]. *)
Inductive Property : Type :=
| Entry (e : Endpoint)
| Inherited.

Fixpoint assoc (key : string) (table : list (string * Endpoint)) : option Endpoint :=
  match table with
  | [] => None
  | (k, e) :: rest => if decide (k = key) then Some e else assoc key rest
  end.

(** [SPORT_ENDPOINTS[key]] *)
Definition lookup (key : string) : option Property :=
  match assoc key SPORT_ENDPOINTS with
  | Some e => Some (Entry e)
  | None => if decide (key ∈ objectPrototypeNames) then Some Inherited else None
  end.

(** [`${sport.category}`] and [`${sport.league}`] *)
Definition categoryText (sport : Property) : string :=
  match sport with Entry e => category e | Inherited => "undefined" end.
Definition leagueText (sport : Property) : string :=
  match sport with Entry e => league e | Inherited => "undefined" end.

(** The part of the scoreboard document that the handler reads. *)
Record Team : Type := { displayName : option string }.
Record Competitor : Type := {
  team : option Team; score : option string; winner : option bool
}.
Record Competition : Type := { competitors : option (list Competitor) }.
Record StatusType : Type := { description : option string }.
Record Status : Type := { type : option StatusType }.
Record Event : Type := {
  name : option string; date : option string;
  status : option Status; competitions : option (list Competition)
}.
Record League : Type := { leagueName : option string }.
Record Scoreboard : Type := {
  leagues : option (list League);
  events : option (list Event)
}.

(** [`${t.team?.displayName ?? "?"} ${t.score ?? "-"}`] *)
Definition competitorText (t : Competitor) : string :=
  let displayed :=
    match team t with
    | Some tm => default "?" (displayName tm)
    | None => "?"
    end in
  displayed +:+ " " +:+ default "-" (score t).

(** The line of one event. *)
Definition eventLine (ev : Event) : string :=
  (* [ev.competitions?.[0]] *)
  let comp : option Competition :=
    match competitions ev with
    | Some (c :: _) => Some c
    | _ => None
    end in
  (* [comp?.competitors ?? []] *)
  let teams : list Competitor :=
    match comp with
    | Some c => default [] (competitors c)
    | None => []
    end in
  (* [ev.status?.type?.description ?? "Unknown"] *)
  let statusText : string :=
    match status ev with
    | Some s =>
        match type s with
        | Some t => default "Unknown" (description t)
        | None => "Unknown"
        end
    | None => "Unknown"
    end in
  let matchup := Js.join "  vs  " (competitorText <$> teams) in
  matchup +:+ "  (" +:+ statusText +:+ ")".

Definition scoreboardUrl (sport : Property) : string :=
  "https://site.api.espn.com/apis/site/v2/sports/" +:+ categoryText sport
  +:+ "/" +:+ leagueText sport +:+ "/scoreboard".

Section Handler.
Variable Net : Type.
(** [fetch(url)] *)
Variable fetch : string → Net → completion (Remote.JsonResponse Scoreboard) * Net.

(** The handler of [get_sports_scores]. *)
Definition get_sports_scores (league : string) (net : Net)
  : completion Mcp.CallToolResult * Net :=
  let key := JsText.toLowerCase league in
  match lookup key with
  | None =>
      let msg := "Unknown league " +:+ Js.dquote +:+ league +:+ Js.dquote
                 +:+ ". Supported: " +:+ Js.join ", " keys in
      (Return (Mcp.error_text msg), net)
  | Some sport =>
      match fetch (scoreboardUrl sport) net with
      | (Throw msg, net') => (Throw msg, net')
      | (Return res, net') =>
          if negb (Remote.ok res) then
            (Return (Mcp.error_text
                       ("ESPN API error: HTTP " +:+ Js.ofNat (Remote.status res))),
             net')
          else
            match Remote.json res with
            | Throw msg => (Throw msg, net')
            | Return data =>
                let events : list Event := default [] (events data) in
                if decide (length events = 0) then
                  (Return (Mcp.ok_text ("No games found for "
                                        +:+ Js.toUpperCase key +:+ " right now.")),
                   net')
                else
                  let lines := eventLine <$> events in
                  (* [data.leagues?.[0]?.name ?? key.toUpperCase()] *)
                  let header :=
                    match leagues data with
                    | Some (l :: _) => default (Js.toUpperCase key) (leagueName l)
                    | _ => Js.toUpperCase key
                    end in
                  (Return (Mcp.ok_text (header +:+ " Scores:" +:+ Js.nl
                                        +:+ Js.join Js.nl lines)), net')
            end
      end
  end.
End Handler.

End Sports.

(** *** [web_search] *)
Module WebSearch.

Record SearchResult : Type := {
  title : option string; url : option string; description : option string
}.
Record Web : Type := { results : option (list SearchResult) }.
Record SearchData : Type := { web : option Web }.

(** [`${i + 1}. ${r.title ?? "(no title)"}\n   ${r.url ?? ""}\n   ${r.description ?? ""}`] *)
Definition resultText (i : nat) (r : SearchResult) : string :=
  Js.ofNat (i + 1) +:+ ". " +:+ default "(no title)" (title r) +:+ Js.nl
  +:+ "   " +:+ default "" (url r) +:+ Js.nl
  +:+ "   " +:+ default "" (description r).

Section Handler.
Variable Net : Type.
(** [fetch(url, { headers })] *)
Variable fetch :
  string → list (string * string) → Net
  → completion (Remote.JsonResponse SearchData) * Net.
(** [process.env.BRAVE_API_KEY] *)
Variable BRAVE_API_KEY : option string.
(** The JavaScript numbers, which is what [z.number()] lets through, and
    the text of one in a template string. *)
Variable Number : Type.
Variable numberText : Number → string.

Definition searchUrl (query : string) (count : Number) : string :=
  "https://api.search.brave.com/res/v1/web/search?q="
  +:+ JsText.encodeURIComponent query +:+ "&count=" +:+ numberText count.

(** The handler of [web_search]; an omitted [count] has become 5 before the
    handler is called. *)
Definition web_search (query : string) (count : Number) (net : Net)
  : completion Mcp.CallToolResult * Net :=
  match BRAVE_API_KEY with
  | None | Some "" =>
      (Return (Mcp.error_text "BRAVE_API_KEY is not set in environment variables."),
       net)
  | Some apiKey =>
      match fetch (searchUrl query count)
              [("X-Subscription-Token", apiKey); ("Accept", "application/json")]
              net with
      | (Throw msg, net') => (Throw msg, net')
      | (Return res, net') =>
          if negb (Remote.ok res) then
            (Return (Mcp.error_text
                       ("Brave Search API error: HTTP " +:+ Js.ofNat (Remote.status res)
                        +:+ " " +:+ Remote.statusText res)), net')
          else
            match Remote.json res with
            | Throw msg => (Throw msg, net')
            | Return data =>
                (* [data.web?.results ?? []] *)
                let results : list SearchResult :=
                  match web data with
                  | Some w => default [] (results w)
                  | None => []
                  end in
                if decide (length results = 0) then
                  (Return (Mcp.ok_text ("No results found for " +:+ Js.dquote
                                        +:+ query +:+ Js.dquote +:+ ".")), net')
                else
                  (Return (Mcp.ok_text
                             (Js.join (Js.nl +:+ Js.nl) (imap resultText results))),
                   net')
            end
      end
  end.
End Handler.

End WebSearch.

(** ** A network that records the requests made to it *)
Module Recorder.

(** [fetch] against a server that answers by [answer], on a network whose
    state is the list of the URLs requested so far. *)
Definition fetch {R : Type} (answer : string → completion R) (url : string)
    (log : list string) : completion R * list string :=
  (answer url, log ++ [url]).

(** The same for a [fetch] that sends headers. *)
Definition fetchWith {R : Type} (answer : string → completion R) (url : string)
    (headers : list (string * string)) (log : list (string * list (string * string)))
  : completion R * list (string * list (string * string)) :=
  (answer url, log ++ [(url, headers)]).

End Recorder.

(** ** src/client.ts: what [main] builds from the discovered tools *)
Module ClientSetup.

Section Tools.
(** The JSON value of an input schema. *)
Variable Json : Type.

(** A tool as [mcpClient.listTools()] gives it. *)
Record McpTool : Type := {
  name : string;
  description : option string;
  inputSchema : Json
}.

Record AnthropicTool : Type := {
  tool_name : string;
  tool_description : string;
  input_schema : Json
}.

(** [mcpTools.map((t) => ({ name, description: t.description ?? "", ... }))] *)
Definition anthropicTools (mcpTools : list McpTool) : list AnthropicTool :=
  (λ t, {| tool_name := name t;
           tool_description := default "" (description t);
           input_schema := inputSchema t |}) <$> mcpTools.

(** [anthropicTools.map((t) => `- ${t.name}: ${t.description}`).join("\n")] *)
Definition toolList (tools : list AnthropicTool) : string :=
  Js.join Js.nl ((λ t, "- " +:+ tool_name t +:+ ": " +:+ tool_description t) <$> tools).

Definition systemPrompt (tools : list AnthropicTool) : string :=
  "You are a helpful assistant with access to these tools:" +:+ Js.nl
  +:+ toolList tools +:+ Js.nl +:+ Js.nl
  +:+ "Always prefer using the specific tool designed for a task rather than a general-purpose tool like fetch_url. For example, use get_sports_scores for sports scores, get_weather for weather, and the file tools for file operations.".
End Tools.

Arguments name {Json} _.
Arguments description {Json} _.
Arguments inputSchema {Json} _.
Arguments tool_name {Json} _.
Arguments tool_description {Json} _.
Arguments input_schema {Json} _.
Arguments anthropicTools {Json} mcpTools.
Arguments toolList {Json} tools.
Arguments systemPrompt {Json} tools.

End ClientSetup.

(** ** src/client.ts: the interactive session *)
Module Repl.

(** [s.repeat(n)] *)
Fixpoint repeat (s : string) (n : nat) : string :=
  match n with
  | 0 => ""
  | S n' => s +:+ repeat s n'
  end.

(** The line that [divider()] prints. *)
Definition divider : string := repeat "─" 60.

Section Session.
Context {Json World : Type}.
Variable create : list (Agent.MessageParam Json) → World
                  → completion (Agent.Message Json) * World.
Variable callTool : string → Json → World → completion Mcp.CallToolResult * World.

(** What a session does, as seen from outside: the questions it asks on the
    terminal, the lines it prints with [console.log] and the errors it
    prints with [console.error], the queries it hands to [processQuery]
    with the calls each one made, and how it shuts down. *)
Inductive Effect : Type :=
| Question (query : string)
| Log (line : string)
| Error (err : string)
| Ran (userQuery : string) (events : list (Agent.Event Json))
| CloseClient
| CloseReadline
| Exit (code : Z).

(** [prompt()], with the lines that the terminal will give, one for each
    question.  When the lines run out the last question stays unanswered.
    [mcpClient.close()] is taken not to throw. *)
Fixpoint prompt (inputs : list string) (w : World) : list Effect * World :=
  match inputs with
  | [] => ([Question "You: "], w)
  | input :: rest =>
      let trimmed := Js.trim input in
      if decide (trimmed = "") then
        let '(effects, w') := prompt rest w in
        (Question "You: " :: effects, w')
      else if decide (trimmed = "quit" ∨ trimmed = "exit") then
        ([Question "You: "; Log "[client] Shutting down…";
          CloseClient; CloseReadline; Exit 0], w)
      else
        let '(out, st) := Agent.processQuery create callTool trimmed w in
        let report :=
          match out with
          | Return answer =>
              [Log divider; Log (Js.nl +:+ "Assistant: " +:+ answer +:+ Js.nl)]
          | Throw err => [Error err]
          end in
        let '(effects, w') := prompt rest (Agent.world st) in
        (Question "You: " :: Log divider :: Ran trimmed (Agent.trace st)
           :: report ++ effects, w')
  end.

End Session.

Arguments Effect : clear implicits.

End Repl.

(** * The vocabulary of the properties *)

(** ** Paths as lists of names *)
Module PathSpec.

Fixpoint slashFree (s : string) : bool :=
  match s with
  | "" => true
  | String c s' => negb (path.isSlash c) && slashFree s'
  end.

(** A name of a directory entry: not empty, not [.] or [..], no separator. *)
Definition proper (seg : string) : Prop :=
  seg ≠ "" ∧ seg ≠ "." ∧ seg ≠ ".." ∧ slashFree seg = true.

(** The names along an absolute path. *)
Definition names (p : string) : list string :=
  path.normalizeSegments false (path.segments p).

(** The resolved path is the root, or the root, a separator and more text. *)
Definition inside (root resolved : string) : Prop :=
  resolved = root ∨ ∃ rest, resolved = root +:+ path.sep +:+ rest.

End PathSpec.

(** ** SQL texts and the two execution modes *)
Module QuerySpec.
Import QueryDatabase.

(** The statement classes of the design document, and its allow-list of
    read-only keywords. *)
Inductive StatementClass : Type := READ | MUTATE | SCRIPT.

Definition readKeywords : list string := ["SELECT"; "PRAGMA"; "EXPLAIN"].

Fixpoint allWhiteSpace (s : string) : bool :=
  match s with
  | "" => true
  | String c s' => Js.isWhiteSpace c && allWhiteSpace s'
  end.

(** The text starts, after white space, with a keyword of the allow-list in
    any mix of cases. *)
Definition beginsWithReadKeyword (sql : string) : Prop :=
  ∃ ws kw rest,
    sql = ws +:+ kw +:+ rest ∧ allWhiteSpace ws = true
    ∧ Js.toUpperCase kw ∈ readKeywords.

(** The test of the design document for a script: the trimmed text has a
    statement separator with something after it. *)
Fixpoint separatorBeforeEnd (s : string) : bool :=
  match s with
  | "" => false
  | String c s' =>
      (bool_decide (c = ";"%char) && negb (bool_decide (s' = "")))
      || separatorBeforeEnd s'
  end.

Definition moreThanOneStatement (sql : string) : bool :=
  separatorBeforeEnd (Js.trim sql).

(** The class that the design document gives a text: a script when it has
    more than one statement; otherwise a read when it begins with a keyword
    of the allow-list, and a mutation when it does not. *)
Definition classOf (sql : string) (c : StatementClass) : Prop :=
  match c with
  | SCRIPT => moreThanOneStatement sql = true
  | READ => moreThanOneStatement sql = false ∧ beginsWithReadKeyword sql
  | MUTATE => moreThanOneStatement sql = false ∧ ¬ beginsWithReadKeyword sql
  end.

Section Modes.
Context {Db Row : Type}.
Variable prepare_all : string → Db → completion (list Row) * Db.
Variable prepare_run : string → Db → completion RunResult * Db.
Variable stringifyRows : list Row → string.
Variable stringifyResult : RunResult → string.
(** [db.exec(sql)], which the architecture document has for a script. *)
Variable exec : string → Db → completion unit * Db.

(** The envelope of the row-returning mode: the rows that [all()] gave, in
    its order, as JSON; or the error of the store. *)
Definition rowsEnvelope (sql : string) (db : Db) : Mcp.CallToolResult * Db :=
  match prepare_all sql db with
  | (Return rows, db') => (Mcp.ok_text (stringifyRows rows), db')
  | (Throw msg, db') => (Mcp.error_text ("SQL Error: " +:+ msg), db')
  end.

(** The envelope of the affected-row mode: [changes] and [lastInsertRowid]
    of [run()] as JSON; or the error of the store. *)
Definition changesEnvelope (sql : string) (db : Db) : Mcp.CallToolResult * Db :=
  match prepare_run sql db with
  | (Return result, db') =>
      (Mcp.ok_text (stringifyResult {| changes := changes result;
                                       lastInsertRowid := lastInsertRowid result |}),
       db')
  | (Throw msg, db') => (Mcp.error_text ("SQL Error: " +:+ msg), db')
  end.

(** The envelope that the architecture document has for a script: the whole
    text goes through [exec], and the result is the object with [executed]
    set; or the error of the store. *)
Definition scriptEnvelope (sql : string) (db : Db) : Mcp.CallToolResult * Db :=
  match exec sql db with
  | (Return _, db') =>
      (Mcp.ok_text ("{" +:+ Js.dquote +:+ "executed" +:+ Js.dquote +:+ ":true}"),
       db')
  | (Throw msg, db') => (Mcp.error_text ("SQL Error: " +:+ msg), db')
  end.
End Modes.

End QuerySpec.

(** ** Row counts *)
Module SeedSpec.
Import Seed.

(** The number of rows [SELECT COUNT( * )] finds once the table is created. *)
Definition count {R : Type} (t : option (Table R)) : nat :=
  length (rows (createIfNotExists t)).

End SeedSpec.

(** ** Turns, conversations and traces of the agent loop *)
Module AgentSpec.
Import Agent.

(** The words of the design document for the final text: the text segments
    put one after the other. *)
Definition concatenation (texts : list string) : string :=
  foldr String.append "" texts.

Section Turns.
Context {Json : Type}.

(** The final text as the loop builds it, with the placeholder of the branch. *)
Definition answer (response : Message Json) (placeholder : string) : string :=
  Js.orElse (Js.join Js.nl (textBlocks (blocks response))) placeholder.

Definition isOracleCall (e : Event Json) : bool :=
  match e with OracleCall _ => true | ToolCall _ _ => false end.

Definition isToolCall (e : Event Json) : bool := negb (isOracleCall e).

(** The number of round trips to the oracle in a trace. *)
Definition oracleCalls (tr : list (Event Json)) : nat :=
  length (filter (λ e, isOracleCall e = true) tr).

(** The calls that the requests of one assistant turn ask for, in order. *)
Definition toolCalls (us : list (ToolUse Json)) : list (Event Json) :=
  (λ u, ToolCall (name u) (input u)) <$> us.

(** A completed turn: the blocks of the assistant and the results sent back. *)
Definition Turn : Type := list (ContentBlock Json) * list ToolResultBlockParam.

(** One result per request, with the id of the request, in the same order. *)
Definition answered (t : Turn) : Prop :=
  tool_use_id <$> t.2 = id <$> toolUseBlocks t.1.

Definition turnMessages (t : Turn) : list (MessageParam Json) :=
  [AssistantTurn t.1; ToolResults t.2].

(** The conversation after the given turns. *)
Definition conversation (q : string) (turns : list Turn) : list (MessageParam Json) :=
  UserText q :: concat (turnMessages <$> turns).

(** The calls made over the given turns when the conversation before them is
    [seen]: for each turn the oracle call that opened it, then its tool calls. *)
Fixpoint calls (seen : list (MessageParam Json)) (turns : list Turn)
  : list (Event Json) :=
  match turns with
  | [] => []
  | t :: rest =>
      OracleCall seen :: toolCalls (toolUseBlocks t.1)
        ++ calls (seen ++ turnMessages t) rest
  end.

(** How a run can end after the completed [turns]: at the ceiling, with no
    further call; or with one more oracle call, on the whole conversation,
    followed at most by tool calls. *)
Definition ending (q : string) (turns : list Turn) (e : list (Event Json)) : Prop :=
  e = [] ∨ ∃ more, e = OracleCall (conversation q turns) :: more
                   ∧ Forall (λ e, isToolCall e = true) more.

(** A run that ends without throwing leaves the conversation of its
    completed turns; one that a tool call ended has the assistant message of
    the turn in progress after them. *)
Definition leaves (q : string) (turns : list Turn) (out : completion string)
    (msgs : list (MessageParam Json)) : Prop :=
  msgs = conversation q turns
  ∨ ∃ bs msg, msgs = conversation q turns ++ [AssistantTurn bs] ∧ out = Throw msg.


End Turns.

Arguments Turn : clear implicits.

Section Worlds.
Context {Json World : Type}.
Variable create : list (MessageParam Json) → World → completion (Message Json) * World.
Variable callTool : string → Json → World → completion Mcp.CallToolResult * World.

(** The requests of an assistant message: its [tool_use] blocks, in the
    order in which the oracle emitted them. *)
Fixpoint requests (bs : list (ContentBlock Json)) : list (ToolUse Json) :=
  match bs with
  | [] => []
  | ToolUseBlock u :: rest => u :: requests rest
  | _ :: rest => requests rest
  end.

(** The requests served one after the other: each call is made in the world
    that the call before it left, and returns; the results are in the order
    of the requests, each with the id of its request and the text of the
    envelope that its call returned. *)
Inductive served
  : World → list (ToolUse Json) → list ToolResultBlockParam → World → Prop :=
| served_none (w : World) : served w [] [] w
| served_next (w : World) (u : ToolUse Json) (us : list (ToolUse Json))
    (envelope : Mcp.CallToolResult) (w1 : World)
    (r : ToolResultBlockParam) (rs : list ToolResultBlockParam) (w' : World) :
    callTool (name u) (input u) w = (Return envelope, w1) →
    tool_use_id r = id u →
    content r = resultText envelope →
    served w1 us rs w' →
    served w (u :: us) (r :: rs) w'.

(** Completed turns, from the conversation [msgs] in the world [w]: the
    oracle is called on the conversation and asks for tools; its requests
    are served, one after the other, in the world that the oracle call left;
    the assistant message and one message with the results are added to the
    conversation; and the next turn starts from there, in the world that the
    last tool call left. *)
Inductive completed
  : list (MessageParam Json) → World → list (Turn Json)
    → list (MessageParam Json) → World → Prop :=
| completed_none (msgs : list (MessageParam Json)) (w : World) :
    completed msgs w [] msgs w
| completed_turn (msgs : list (MessageParam Json)) (w : World)
    (response : Message Json) (w1 : World) (rs : list ToolResultBlockParam)
    (w2 : World) (turns : list (Turn Json))
    (msgs' : list (MessageParam Json)) (w' : World) :
    create msgs w = (Return response, w1) →
    stop_reason response = Some "tool_use" →
    served w1 (requests (blocks response)) rs w2 →
    completed (msgs ++ [AssistantTurn (blocks response); ToolResults rs]) w2
      turns msgs' w' →
    completed msgs w ((blocks response, rs) :: turns) msgs' w'.

(** A run that the ceiling ended, after turns that led to [msgs] and [w]. *)
Definition atCeiling (msgs : list (MessageParam Json)) (w : World)
    (run : completion string * State Json World) : Prop :=
  run.1 = Return "(reached max iterations)"
  ∧ messages run.2 = msgs ∧ world run.2 = w.

(** A run that ended on one more oracle call, made on [msgs] in [w]: the
    call threw; or it returned a response that does not ask for tools; or it
    asked for tools and, after some requests were served one after the
    other, the call for the next request threw. *)
Definition stopped (msgs : list (MessageParam Json)) (w : World)
    (run : completion string * State Json World) : Prop :=
  (∃ msg w1,
      create msgs w = (Throw msg, w1)
      ∧ run.1 = Throw msg ∧ messages run.2 = msgs ∧ world run.2 = w1)
  ∨ (∃ response w1 text,
      create msgs w = (Return response, w1)
      ∧ stop_reason response ≠ Some "tool_use"
      ∧ run.1 = Return text ∧ messages run.2 = msgs ∧ world run.2 = w1)
  ∨ (∃ response w1 before u after rs w2 msg w3,
      create msgs w = (Return response, w1)
      ∧ stop_reason response = Some "tool_use"
      ∧ requests (blocks response) = before ++ u :: after
      ∧ served w1 before rs w2
      ∧ callTool (name u) (input u) w2 = (Throw msg, w3)
      ∧ run.1 = Throw msg
      ∧ messages run.2 = msgs ++ [AssistantTurn (blocks response)]
      ∧ world run.2 = w3).
End Worlds.

End AgentSpec.

(** ** Text without white space around it *)
Module TextSpec.

(** The text does not start with white space. *)
Definition startsClean (t : string) : Prop :=
  match t with
  | String c _ => Js.isWhiteSpace c = false
  | "" => True
  end.

(** The text does not end with white space. *)
Definition endsClean (t : string) : Prop := startsClean (String.rev t).

End TextSpec.

(** ** Characters of an encoded URI component, and the scoreboard addresses *)
Module RemoteSpec.

(** The character [c] occurs in the text [s]. *)
Definition occursIn (c : ascii) (s : string) : Prop :=
  ∃ before after, s = before +:+ String c after.

(** A character that is unreserved, or the percent sign of an escape. *)
Definition isComponentChar (c : ascii) : bool :=
  JsText.isUnreserved c || bool_decide (c = "%"%char).

Fixpoint allComponentChars (s : string) : bool :=
  match s with
  | "" => true
  | String c s' => isComponentChar c && allComponentChars s'
  end.

(** The addresses of the scoreboards of the table, and the one that an
    inherited property name gives. *)
Definition scoreboardUrls : list string :=
  ((λ entry, Sports.scoreboardUrl (Sports.Entry entry.2)) <$> Sports.SPORT_ENDPOINTS)
  ++ [Sports.scoreboardUrl Sports.Inherited].

End RemoteSpec.

(** ** The lines of a session *)
Module ReplSpec.
Import Repl.

(** The line ends the session. *)
Definition stops (input : string) : Prop :=
  Js.trim input = "quit" ∨ Js.trim input = "exit".

(** The trimmed lines that are not blank. *)
Definition asked (inputs : list string) : list string :=
  filter (λ q, q ≠ "") (Js.trim <$> inputs).

(** The queries that a session handed to [processQuery], in order. *)
Definition queries {Json : Type} (effects : list (Effect Json)) : list string :=
  omap (λ e, match e with Ran q _ => Some q | _ => None end) effects.

End ReplSpec.

(** * Properties *)

(** ** Strings *)
Module JsFacts.
Import Js.

Lemma append_cons (c : ascii) (s t : string) :
  String c s +:+ t = String c (s +:+ t).
Proof. reflexivity. Qed.

Lemma append_nil_r (s : string) : s +:+ "" = s.
Proof. induction s as [|c s IH]; [done|]. by rewrite append_cons, IH. Qed.

Lemma append_assoc (s t u : string) : (s +:+ t) +:+ u = s +:+ (t +:+ u).
Proof. induction s as [|c s IH]; [done|]. by rewrite !append_cons, IH. Qed.

Lemma append_eq_nil (s t : string) : s +:+ t = "" → s = "" ∧ t = "".
Proof. destruct s; [done|]. by rewrite append_cons. Qed.

Lemma startsWith_spec (s p : string) :
  startsWith s p = true ↔ ∃ t, s = p +:+ t.
Proof.
  revert s. induction p as [|a p IH]; intros s; simpl.
  - split; [intros _; by exists s|done].
  - destruct s as [|b s].
    + split; [done|]. intros [t Ht]. by rewrite append_cons in Ht.
    + case_decide as Hab.
      * subst b. rewrite IH. split; intros [t Ht]; exists t.
        -- by rewrite append_cons, Ht.
        -- rewrite append_cons in Ht. by simplify_eq.
      * split; [done|]. intros [t Ht]. rewrite append_cons in Ht. by simplify_eq.
Qed.

(** [take n s] is the prefix of [s] of length [n], when [s] is that long. *)
Lemma take_prefix (n : nat) (s : string) : ∃ rest, s = take n s +:+ rest.
Proof.
  revert s. induction n as [|n IH]; intros s.
  - by exists s.
  - destruct s as [|c s]; [by exists ""|].
    destruct (IH s) as [rest Hrest]. exists rest. simpl.
    by rewrite append_cons, <-Hrest.
Qed.

Lemma take_length (n : nat) (s : string) :
  n ≤ String.length s → String.length (take n s) = n.
Proof.
  revert s. induction n as [|n IH]; intros s Hn; [done|].
  destruct s as [|c s]; simpl in *; [lia|]. rewrite IH; lia.
Qed.

Lemma join_singleton (sep x : string) : join sep [x] = x.
Proof. reflexivity. Qed.

Lemma join_cons (sep x y : string) (l : list string) :
  join sep (x :: y :: l) = x +:+ sep +:+ join sep (y :: l).
Proof. reflexivity. Qed.

Lemma orElse_nonempty (a b : string) : a ≠ "" → orElse a b = a.
Proof. intros Ha. unfold orElse. by case_decide. Qed.

End JsFacts.

(** ** Paths: segments, names and prefixes *)
Module PathFacts.
Import Js path PathSpec.

Lemma slashFree_app (s t : string) :
  slashFree (s +:+ t) = slashFree s && slashFree t.
Proof.
  induction s as [|c s IH]; [done|].
  rewrite JsFacts.append_cons. simpl. rewrite IH. by rewrite andb_assoc.
Qed.

Lemma slashFree_no_slash (u v t : string) :
  slashFree u = true → u ≠ v +:+ "/" +:+ t.
Proof.
  intros Hu ->. rewrite slashFree_app in Hu.
  apply andb_true_iff in Hu as [_ Hu]. done.
Qed.

Lemma slashFree_split (u v s t : string) :
  slashFree u = true → slashFree v = true →
  u +:+ "/" +:+ s = v +:+ "/" +:+ t → u = v ∧ s = t.
Proof.
  revert v. induction u as [|c u IH]; intros [|d v] Hu Hv Heq.
  - by simplify_eq.
  - injection Heq as <- _. done.
  - injection Heq as -> _. done.
  - injection Heq as -> Heq.
    simpl in Hu, Hv. apply andb_true_iff in Hu as [_ Hu].
    apply andb_true_iff in Hv as [_ Hv].
    by destruct (IH v Hu Hv Heq) as [-> ->].
Qed.

Lemma segments_nonempty (s : string) : segments s ≠ [].
Proof.
  induction s as [|c s IH]; [done|]. simpl.
  destruct (isSlash c); [done|]. by destruct (segments s).
Qed.

Lemma segments_slashFree (s : string) : Forall (λ seg, slashFree seg = true) (segments s).
Proof.
  induction s as [|c s IH]; simpl.
  - by repeat constructor.
  - destruct (isSlash c) eqn:Hc; [by constructor|].
    destruct (segments s) as [|seg rest].
    + repeat constructor. simpl. by rewrite Hc.
    + inversion_clear IH as [|?? Hseg Hrest]. constructor; [|done].
      simpl. by rewrite Hc, Hseg.
Qed.

Lemma segments_app_slash (a b : string) :
  segments (a +:+ "/" +:+ b) = segments a ++ segments b.
Proof.
  induction a as [|c a IH]; [done|].
  rewrite JsFacts.append_cons. simpl. rewrite IH.
  destruct (isSlash c); [done|].
  pose proof (segments_nonempty a). by destruct (segments a).
Qed.

Lemma segments_of_slashFree (s : string) : slashFree s = true → segments s = [s].
Proof.
  induction s as [|c s IH]; [done|]. simpl.
  intros [Hc Hs]%andb_true_iff. apply negb_true_iff in Hc. rewrite Hc.
  by rewrite (IH Hs).
Qed.

Lemma join_app (sep : string) (a k : list string) :
  a ≠ [] → k ≠ [] → Js.join sep (a ++ k) = Js.join sep a +:+ sep +:+ Js.join sep k.
Proof.
  induction a as [|x a IH]; [done|]. intros _ Hk.
  destruct a as [|x' a].
  - simpl. by destruct k.
  - change ((x :: x' :: a) ++ k) with (x :: x' :: (a ++ k)).
    rewrite !JsFacts.join_cons.
    change (x' :: a ++ k) with ((x' :: a) ++ k). rewrite IH by done.
    by rewrite !JsFacts.append_assoc.
Qed.

Lemma segments_join (l : list string) :
  l ≠ [] → Forall (λ seg, slashFree seg = true) l → segments (Js.join "/" l) = l.
Proof.
  induction l as [|x l IH]; [done|]. intros _ Hl.
  inversion_clear Hl as [|?? Hx Hrest]. destruct l as [|y l].
  - simpl. by apply segments_of_slashFree.
  - rewrite JsFacts.join_cons, segments_app_slash, IH by done.
    by rewrite (segments_of_slashFree x Hx).
Qed.

Lemma step_proper (stack : list string) (seg : string) :
  proper seg → step false stack seg = seg :: stack.
Proof.
  intros (H0 & H1 & H2 & _). unfold step.
  by rewrite !bool_decide_eq_false_2 by done.
Qed.

Lemma fold_step_proper (l stack : list string) :
  Forall proper l → fold_left (step false) l stack = rev l ++ stack.
Proof.
  revert stack. induction l as [|x l IH]; intros stack Hl; [done|].
  inversion_clear Hl as [|?? Hx Hrest]. simpl.
  rewrite (step_proper stack x Hx), IH by done. by rewrite <-app_assoc.
Qed.

Lemma step_keeps_proper (stack : list string) (seg : string) :
  slashFree seg = true → Forall proper stack → Forall proper (step false stack seg).
Proof.
  intros Hseg Hstack. unfold step.
  destruct (bool_decide (seg = "")) eqn:H0; [done|].
  destruct (bool_decide (seg = ".")) eqn:H1; [done|]. simpl.
  destruct (bool_decide (seg = "..")) eqn:H2.
  - destruct stack; [done|]. simpl. by inversion Hstack.
  - apply bool_decide_eq_false in H0, H1, H2. by constructor.
Qed.

Lemma fold_step_keeps_proper (segs stack : list string) :
  Forall (λ seg, slashFree seg = true) segs → Forall proper stack →
  Forall proper (fold_left (step false) segs stack).
Proof.
  revert stack. induction segs as [|seg segs IH]; intros stack Hsegs Hstack;
    [done|].
  inversion_clear Hsegs as [|?? Hseg Hrest]. simpl.
  apply IH; [done|]. by apply step_keeps_proper.
Qed.

Lemma names_proper (p : string) : Forall proper (names p).
Proof.
  unfold names, normalizeSegments. apply Forall_rev.
  apply fold_step_keeps_proper; [apply segments_slashFree|done].
Qed.

Lemma proper_slashFree (l : list string) :
  Forall proper l → Forall (λ seg, slashFree seg = true) l.
Proof. intros Hl. eapply Forall_impl; [exact Hl|]. by intros seg (_ & _ & _ & Hseg). Qed.

(** Writing the names of a path and reading them back gives the names. *)
Lemma names_join (l : list string) :
  Forall proper l → names ("/" +:+ Js.join "/" l) = l.
Proof.
  intros Hl. unfold names, normalizeSegments.
  change (segments ("/" +:+ Js.join "/" l)) with ("" :: segments (Js.join "/" l)).
  destruct l as [|x l]; [by vm_compute|].
  rewrite segments_join; [|done|by apply proper_slashFree].
  change (fold_left (step false) ("" :: x :: l) [])
    with (fold_left (step false) (x :: l) []).
  rewrite fold_step_proper by done. by rewrite app_nil_r, rev_involutive.
Qed.

Lemma gather_absolute (cwd : string) (args : list string) :
  isAbsolute cwd = true → (gather (cwd :: args)).2 = true.
Proof.
  intros Hcwd. simpl. destruct (gather args) as [acc []]; [done|].
  rewrite bool_decide_eq_false_2; [done|]. by intros ->.
Qed.

(** In a process whose working directory is absolute, [resolve] gives a
    separator followed by names joined by separators. *)
Lemma resolve_absolute (cwd : string) (args : list string) :
  isAbsolute cwd = true →
  resolve cwd args = "/" +:+ Js.join "/" (names (gather (cwd :: args)).1).
Proof.
  intros Hcwd. unfold resolve.
  pose proof (gather_absolute cwd args Hcwd) as Habs.
  destruct (gather (cwd :: args)) as [p absolute]. simpl in Habs. subst absolute.
  reflexivity.
Qed.

Lemma names_resolve (cwd : string) (args : list string) :
  isAbsolute cwd = true →
  names (resolve cwd args) = names (gather (cwd :: args)).1.
Proof.
  intros Hcwd. rewrite resolve_absolute by done.
  apply names_join, names_proper.
Qed.

Lemma join_names_inj (a b : list string) :
  Forall proper a → Forall proper b → Js.join "/" a = Js.join "/" b → a = b.
Proof.
  intros Ha Hb Heq.
  rewrite <-(names_join a Ha), <-(names_join b Hb). by rewrite Heq.
Qed.

(** Text against names: the joined names [b] extend the joined names [a] by a
    separator and more text exactly when the list [b] extends the list [a]
    by at least one name. *)
Lemma join_extends (a b : list string) :
  a ≠ [] → Forall proper a → Forall proper b →
  (∃ rest, Js.join "/" b = Js.join "/" a +:+ "/" +:+ rest)
  ↔ ∃ k, k ≠ [] ∧ b = a ++ k.
Proof.
  intros Ha Hpa Hpb. split.
  - revert b Hpb. induction a as [|x a IH]; [done|]. intros b Hpb [rest Hrest].
    inversion_clear Hpa as [|?? Hx Hpa'].
    destruct b as [|y b].
    { symmetry in Hrest. destruct a; simpl in Hrest.
      - apply JsFacts.append_eq_nil in Hrest as [-> _]. by destruct Hx.
      - rewrite JsFacts.append_assoc in Hrest.
        apply JsFacts.append_eq_nil in Hrest as [-> _]. by destruct Hx. }
    inversion_clear Hpb as [|?? Hy Hpb'].
    assert (slashFree x = true ∧ slashFree y = true) as [Hsx Hsy]
      by (split; [by destruct Hx as (_ & _ & _ & ?)|by destruct Hy as (_ & _ & _ & ?)]).
    destruct a as [|x' a].
    + rewrite JsFacts.join_singleton in Hrest. destruct b as [|y' b].
      * rewrite JsFacts.join_singleton in Hrest.
        by destruct (slashFree_no_slash y x rest Hsy).
      * rewrite JsFacts.join_cons in Hrest.
        destruct (slashFree_split _ _ _ _ Hsy Hsx Hrest) as [-> _].
        by exists (y' :: b).
    + rewrite JsFacts.join_cons, JsFacts.append_assoc in Hrest.
      change (("/" +:+ Js.join "/" (x' :: a)) +:+ "/" +:+ rest)
        with ("/" +:+ (Js.join "/" (x' :: a) +:+ "/" +:+ rest)) in Hrest.
      destruct b as [|y' b].
      * rewrite JsFacts.join_singleton in Hrest.
        by destruct (slashFree_no_slash y x
                       (Js.join "/" (x' :: a) +:+ "/" +:+ rest) Hsy).
      * rewrite JsFacts.join_cons in Hrest.
        destruct (slashFree_split _ _ _ _ Hsy Hsx Hrest) as [-> Htail].
        destruct (IH ltac:(done) Hpa' (y' :: b) Hpb') as (k & Hk & Hb);
          [by exists rest|].
        exists k. split; [done|]. by rewrite Hb.
  - intros (k & Hk & ->). exists (Js.join "/" k). by apply join_app.
Qed.

End PathFacts.

(** ** [safePath] *)
Module SandboxFacts.
Import Sandbox PathSpec PathFacts.

Lemma inside_dec (root resolved : string) :
  inside root resolved
  ↔ Js.startsWith resolved (root +:+ path.sep) = true ∨ resolved = root.
Proof.
  unfold inside. rewrite JsFacts.startsWith_spec. split.
  - intros [->|[rest ->]]; [by right|left]. exists rest.
    by rewrite JsFacts.append_assoc.
  - intros [[rest ->]| ->]; [right|by left]. exists rest.
    by rewrite JsFacts.append_assoc.
Qed.

Lemma safePath_cases (cwd userPath : string) :
  let resolved := path.resolve cwd [WORKSPACE_DIR cwd; userPath] in
  (inside (WORKSPACE_DIR cwd) resolved ∧ safePath cwd userPath = Return resolved)
  ∨ (¬ inside (WORKSPACE_DIR cwd) resolved
     ∧ safePath cwd userPath = Throw ("Path escapes workspace: " +:+ userPath)).
Proof.
  intros resolved. rewrite inside_dec. unfold safePath. fold resolved.
  destruct (Js.startsWith resolved (WORKSPACE_DIR cwd +:+ path.sep)) eqn:Hstarts;
    simpl.
  - left. by split; [left|].
  - case_bool_decide as Hroot; simpl.
    + left. by split; [right|].
    + right. split; [|done]. by intros [?|?].
Qed.

Lemma names_WORKSPACE_DIR (cwd : string) :
  path.isAbsolute cwd = true →
  names (WORKSPACE_DIR cwd) = names cwd ++ ["workspace"].
Proof.
  intros Hcwd. unfold WORKSPACE_DIR. rewrite names_resolve by done.
  assert (cwd ≠ "") as Hne by by intros ->.
  simpl. rewrite !bool_decide_eq_false_2 by done. simpl. rewrite Hcwd. simpl.
  unfold names, path.normalizeSegments. rewrite segments_app_slash.
  rewrite fold_left_app. change (path.segments ("workspace" +:+ "/" +:+ ""))
    with ["workspace"; ""].
  reflexivity.
Qed.

(** Text against names for the check of [safePath]. *)
Lemma inside_names (root resolved : list string) :
  root ≠ [] → Forall proper root → Forall proper resolved →
  inside ("/" +:+ Js.join "/" root) ("/" +:+ Js.join "/" resolved)
  ↔ root `prefix_of` resolved.
Proof.
  intros Hne Hroot Hres. unfold inside, path.sep. split.
  - intros [Heq|[rest Hrest]].
    + injection Heq as Heq. apply join_names_inj in Heq; [|done..]. by subst.
    + rewrite JsFacts.append_cons in Hrest. injection Hrest as Hrest.
      destruct (proj1 (join_extends root resolved Hne Hroot Hres)) as (k & _ & ->);
        [by exists rest|]. by exists k.
  - intros [k ->]. destruct k as [|z k].
    + left. by rewrite app_nil_r.
    + right. destruct (proj2 (join_extends root (root ++ z :: k) Hne Hroot Hres))
        as [rest Hrest]; [by exists (z :: k)|].
      exists rest. by rewrite JsFacts.append_cons, Hrest.
Qed.

Lemma resolve_names (cwd : string) (args : list string) :
  path.isAbsolute cwd = true →
  path.resolve cwd args = "/" +:+ Js.join "/" (names (path.resolve cwd args)).
Proof. intros Hcwd. rewrite names_resolve by done. by apply resolve_absolute. Qed.

Lemma inside_prefix (cwd userPath : string) :
  path.isAbsolute cwd = true →
  inside (WORKSPACE_DIR cwd) (path.resolve cwd [WORKSPACE_DIR cwd; userPath])
  ↔ names (WORKSPACE_DIR cwd)
      `prefix_of` names (path.resolve cwd [WORKSPACE_DIR cwd; userPath]).
Proof.
  intros Hcwd.
  rewrite (resolve_names cwd [WORKSPACE_DIR cwd; userPath] Hcwd) at 1.
  unfold WORKSPACE_DIR at 1. rewrite (resolve_names cwd [cwd; "workspace"] Hcwd).
  fold (WORKSPACE_DIR cwd). apply inside_names; [|apply names_proper..].
  rewrite names_WORKSPACE_DIR by done. by destruct (names cwd).
Qed.

(** C1. [safePath] returns the resolved path exactly when that path is the
    workspace root, or the root followed at once by the separator and more
    text; otherwise it throws an error that carries the path as the user
    gave it.  What it returns is never anything but the complete resolution:
    in a process with an absolute working directory that is a separator
    followed by names (none empty, [.] or [..]) joined by separators, and the
    check holds exactly when the names of the root are the first names of the
    resolved path.  A sibling whose name extends the name of the root, as
    [/a/workspace2] for the root [/a/workspace], is rejected. *)
Theorem safePath_accepts_exactly_inside (cwd userPath : string) :
  let root := WORKSPACE_DIR cwd in
  let resolved := path.resolve cwd [root; userPath] in
  (safePath cwd userPath = Return resolved ↔ inside root resolved)
  ∧ (¬ inside root resolved →
       safePath cwd userPath = Throw ("Path escapes workspace: " +:+ userPath))
  ∧ (∀ p, safePath cwd userPath = Return p → p = resolved)
  ∧ (path.isAbsolute cwd = true →
       resolved = "/" +:+ Js.join "/" (names resolved)
       ∧ Forall proper (names resolved)
       ∧ (inside root resolved ↔ names root `prefix_of` names resolved))
  ∧ WORKSPACE_DIR "/a" = "/a/workspace"
  ∧ safePath "/a" "../workspace2"
    = Throw "Path escapes workspace: ../workspace2"
  ∧ safePath "/a" "/a/workspace2/notes.txt"
    = Throw "Path escapes workspace: /a/workspace2/notes.txt".
Proof.
  intros root resolved.
  split; [|split; [|split; [|split; [|by vm_compute]]]].
  - destruct (safePath_cases cwd userPath) as [[Hin ->]|[Hout ->]]; [done|].
    split; [done|]. intros Hin. by destruct Hout.
  - intros Hout.
    by destruct (safePath_cases cwd userPath) as [[Hin _]|[_ ->]].
  - intros p.
    destruct (safePath_cases cwd userPath) as [[_ ->]|[_ ->]]; [|done].
    by intros [= <-].
  - intros Hcwd. split; [by apply resolve_names|].
    split; [apply names_proper|]. by apply inside_prefix.
Qed.

Lemma safePath_accepts_exactly_inside_witness :
  safePath "/a" "sub/../sub/./a.txt" = Return "/a/workspace/sub/a.txt"
  ∧ names "/a/workspace" `prefix_of` names "/a/workspace/sub/a.txt".
Proof.
  destruct (safePath_accepts_exactly_inside "/a" "sub/../sub/./a.txt")
    as (Haccept & _ & _ & Hnames & _).
  assert (inside "/a/workspace" "/a/workspace/sub/a.txt") as Hin
    by (right; by exists "sub/a.txt").
  split.
  - exact (proj2 Haccept Hin).
  - destruct (Hnames eq_refl) as (_ & _ & Hprefix). exact (proj1 Hprefix Hin).
Defined.

Example safePath_examples :
  safePath "/a" "a.txt" = Return "/a/workspace/a.txt"
  ∧ safePath "/a" "sub/a.txt" = Return "/a/workspace/sub/a.txt"
  ∧ safePath "/a" "../escape" = Throw "Path escapes workspace: ../escape"
  ∧ safePath "/a" "..secret" = Return "/a/workspace/..secret"
  ∧ safePath "/a" "." = Return "/a/workspace"
  ∧ safePath "/a" "../../etc/passwd"
    = Throw "Path escapes workspace: ../../etc/passwd".
Proof. by vm_compute. Qed.

End SandboxFacts.

(** ** [run_code]: the envelope and the script file *)
Module RunCodeFacts.
Import RunCode.

Lemma unlink_leaves_no_file (p : string) (fs : Fs.t) (data : string) :
  (Fs.unlink None p fs).2 !! p ≠ Some (Fs.File data).
Proof.
  unfold Fs.unlink. destruct (fs !! p) as [[d|]|] eqn:Hp; simpl.
  - by rewrite lookup_delete_eq.
  - by rewrite Hp.
  - by rewrite Hp.
Qed.

(** An [unlink] that is refused, or that throws for another reason, leaves
    the file system as it is. *)
Lemma unlink_refused (msg p : string) (fs : Fs.t) :
  (Fs.unlink (Some msg) p fs).2 = fs.
Proof. unfold Fs.unlink. by destruct (fs !! p) as [[d|]|]. Qed.

Lemma mkdir_throws_on_file (p : string) (fs : Fs.t) (data : string) :
  fs !! p = Some (Fs.File data) → ∃ msg, Fs.mkdir p fs = (Throw msg, fs).
Proof. intros Hp. unfold Fs.mkdir. rewrite Hp. by eexists. Qed.

Lemma mkdir_returns (p : string) (fs : Fs.t) :
  (∀ data, fs !! p ≠ Some (Fs.File data)) →
  ∃ fs', Fs.mkdir p fs = (Return (), fs').
Proof.
  intros Hp. unfold Fs.mkdir. destruct (fs !! p) as [[d|]|] eqn:Hfs.
  - by destruct (Hp d).
  - by eexists.
  - by eexists.
Qed.

Section Handler.
Variable cwd : string.
Variable execFileAsync :
  string → list string → Z → string → Fs.t → ExecOutcome * Fs.t.
Variable writeFault : option string.
Variable unlinkFault : option string.


End Handler.



Example run_code_prints :
  run_code "/srv/app" (Scenario.prints "42") None None "3f2a" "print(42)"
    Scenario.started
  = (Return (Mcp.ok_text "42"),
     {[ "/srv/app/workspace" := Fs.Dir; "/srv/app/workspace/.tmp" := Fs.Dir ]}).
Proof. by vm_compute. Qed.

End RunCodeFacts.

(** ** [fetch_url] *)
Module FetchUrlFacts.
Import FetchUrl.

Lemma slice0_first (n : Z) (body : string) :
  (0 ≤ n < Js.length body)%Z →
  ∃ rest, body = Js.slice0 n body +:+ rest ∧ Js.length (Js.slice0 n body) = n.
Proof.
  intros Hn. unfold Js.slice0, Js.length in *.
  destruct (JsFacts.take_prefix (Z.to_nat n) body) as [rest Hrest].
  exists rest. split; [done|]. rewrite JsFacts.take_length; lia.
Qed.

(** C10. A response that is [ok] comes back whole when its body has at most
    5000 characters, and as its first 5000 characters followed by the
    truncation marker when it has more; a response that is not [ok] makes the
    handler return (not throw) an envelope with [isError] set whose text is
    [HTTP], the status code and the status text. *)
Theorem fetch_url_body_or_status (fetch : string → completion Response)
    (url : string) (res : Response) :
  fetch url = Return res →
  (ok res = false →
     fetch_url fetch url
     = Return {| Mcp.content := [ {| Mcp.type := "text";
                   Mcp.text := Some ("HTTP " +:+ Js.ofNat (status res) +:+ " "
                                     +:+ statusText res) |} ];
                 Mcp.isError := Some true |})
  ∧ (∀ body, ok res = true → text res = Return body →
       ((Js.length body ≤ 5000)%Z →
          fetch_url fetch url
          = Return {| Mcp.content := [ {| Mcp.type := "text"; Mcp.text := Some body |} ];
                      Mcp.isError := None |})
       ∧ ((Js.length body > 5000)%Z →
          ∃ first rest,
            body = first +:+ rest ∧ Js.length first = 5000%Z
            ∧ fetch_url fetch url
              = Return {| Mcp.content := [ {| Mcp.type := "text";
                            Mcp.text := Some (first +:+ Js.nl +:+ "... (truncated)") |} ];
                          Mcp.isError := None |})).
Proof.
  intros Hfetch. unfold fetch_url. rewrite Hfetch. split.
  - by intros ->.
  - intros body -> ->. simpl. split; intros Hlen.
    + destruct (Z.gtb_spec (Js.length body) 5000) as [?|_]; [lia|done].
    + destruct (Z.gtb_spec (Js.length body) 5000) as [_|?]; [|lia].
      destruct (slice0_first 5000 body) as (rest & Hbody & Hfirst); [lia|].
      by exists (Js.slice0 5000 body), rest.
Qed.

Lemma fetch_url_body_or_status_witness :
  fetch_url (Scenario.answering 200 "OK" "hello") "https://example.com"
  = Return (Mcp.ok_text "hello").
Proof.
  destruct (fetch_url_body_or_status (Scenario.answering 200 "OK" "hello")
              "https://example.com" _ eq_refl) as [_ Hok].
  destruct (Hok "hello" eq_refl eq_refl) as [Hshort _].
  apply Hshort. by vm_compute.
Defined.

Example fetch_url_long :
  fetch_url (Scenario.answering 200 "OK" (Scenario.filler (Z.to_nat 5001)))
    "https://example.com"
  = Return (Mcp.ok_text (Scenario.filler (Z.to_nat 5000) +:+ Js.nl +:+ "... (truncated)")).
Proof. by vm_compute. Qed.

Example fetch_url_exactly_5000 :
  fetch_url (Scenario.answering 200 "OK" (Scenario.filler (Z.to_nat 5000)))
    "https://example.com"
  = Return (Mcp.ok_text (Scenario.filler (Z.to_nat 5000))).
Proof. by vm_compute. Qed.

Example fetch_url_not_found :
  fetch_url (Scenario.answering 404 "Not Found" "gone") "https://example.com"
  = Return (Mcp.error_text "HTTP 404 Not Found").
Proof. by vm_compute. Qed.

End FetchUrlFacts.

(** ** [query_database]: the choice of the execution mode *)
Module QueryDatabaseFacts.
Import Js QueryDatabase QuerySpec.

Lemma trimStart_split (s : string) :
  ∃ ws, s = ws +:+ trimStart s ∧ allWhiteSpace ws = true.
Proof.
  induction s as [|c s (ws & Hs & Hws)]; [by exists ""|]. simpl.
  destruct (isWhiteSpace c) eqn:Hc.
  - exists (String c ws). rewrite JsFacts.append_cons, <-Hs. simpl.
    by rewrite Hc, Hws.
  - by exists "".
Qed.

Lemma trimStart_skips (ws s : string) :
  allWhiteSpace ws = true → trimStart (ws +:+ s) = trimStart s.
Proof.
  induction ws as [|c ws IH]; [done|]. simpl.
  intros [Hc Hws]%andb_true_iff. rewrite Hc. auto.
Qed.

Lemma toUpperCase_app (s t : string) :
  toUpperCase (s +:+ t) = toUpperCase s +:+ toUpperCase t.
Proof.
  induction s as [|c s IH]; [done|].
  rewrite JsFacts.append_cons. simpl. by rewrite IH, JsFacts.append_cons.
Qed.

Lemma upperChar_whiteSpace (c : ascii) : isWhiteSpace c = true → upperChar c = c.
Proof. destruct c as [[] [] [] [] [] [] [] []]; by vm_compute. Qed.

(** The upper-cased text starts with [K] exactly when the text starts with
    some spelling of [K]. *)
Lemma startsWith_toUpperCase (s K : string) :
  startsWith (toUpperCase s) K = true
  ↔ ∃ kw rest, s = kw +:+ rest ∧ toUpperCase kw = K.
Proof.
  split.
  - revert s. induction K as [|a K IH]; intros s Hs.
    + by exists "", s.
    + destruct s as [|b s]; simpl in Hs; [done|].
      case_decide as Hab; [|done].
      destruct (IH s Hs) as (kw & rest & -> & <-).
      exists (String b kw), rest. split; [done|]. simpl. by rewrite Hab.
  - intros (kw & rest & -> & <-). rewrite toUpperCase_app.
    apply JsFacts.startsWith_spec. by eexists.
Qed.

Lemma elem_of_readKeywords (K : string) :
  K ∈ readKeywords ↔ K = "SELECT" ∨ K = "PRAGMA" ∨ K = "EXPLAIN".
Proof.
  unfold readKeywords. rewrite !elem_of_cons, elem_of_nil. tauto.
Qed.

Lemma keyword_not_trimmed (kw rest : string) :
  toUpperCase kw ∈ readKeywords → trimStart (kw +:+ rest) = kw +:+ rest.
Proof.
  rewrite elem_of_readKeywords. intros Hkw. destruct kw as [|c kw].
  - by destruct Hkw as [?|[?|?]].
  - rewrite JsFacts.append_cons. simpl.
    destruct (isWhiteSpace c) eqn:Hc; [|done]. exfalso.
    simpl in Hkw. rewrite (upperChar_whiteSpace c Hc) in Hkw.
    destruct Hkw as [?|[?|?]]; simplify_eq; by vm_compute in Hc.
Qed.

Lemma isRead_spec (sql : string) : isRead sql = true ↔ beginsWithReadKeyword sql.
Proof.
  unfold isRead, trimmed, beginsWithReadKeyword. split.
  - destruct (trimStart_split sql) as (ws & Hsql & Hws).
    rewrite !orb_true_iff, !startsWith_toUpperCase.
    intros [[H|H]|H]; destruct H as (kw & rest & Hkw & Hup);
      exists ws, kw, rest; rewrite <-Hkw, Hup, elem_of_readKeywords; tauto.
  - intros (ws & kw & rest & -> & Hws & Hkw).
    rewrite (trimStart_skips ws _ Hws), (keyword_not_trimmed kw rest Hkw).
    rewrite !orb_true_iff, !startsWith_toUpperCase.
    apply elem_of_readKeywords in Hkw as [?|[?|?]];
      [left; left|left; right|right]; by exists kw, rest.
Qed.

Section Dispatch.
Variables Db Row : Type.
Variable prepare_all : string → Db → completion (list Row) * Db.
Variable prepare_run : string → Db → completion RunResult * Db.
Variable stringifyRows : list Row → string.
Variable stringifyResult : RunResult → string.

(** Every text goes, whole, to one prepared statement: through [all()] when
    [isRead] holds of it and through [run()] when it does not. *)
Lemma query_database_modes (sql : string) (db : Db) :
  query_database Db Row prepare_all prepare_run stringifyRows stringifyResult sql db
  = (if isRead sql then rowsEnvelope prepare_all stringifyRows sql db
     else changesEnvelope prepare_run stringifyResult sql db).
Proof.
  unfold query_database, rowsEnvelope, changesEnvelope.
  destruct (isRead sql); [done|].
  by destruct (prepare_run sql db) as [[[]|msg] db'].
Qed.


End Dispatch.


(** C2.  The design document classes a text with more than one statement
    SCRIPT, and the architecture document of the repository sends it to
    [exec] and answers with the object that has [executed] set.  The handler
    has no such branch: the text goes, whole, to one prepared statement in
    the mode of its first keyword.  For the example of the design document
    that is [run()], whatever the store; better-sqlite3 refuses to prepare a
    text with a second statement, so the answer is the error of the store
    with [isError] set, where the architecture document has the [executed]
    object. *)
Theorem query_database_has_no_script_branch :
  let sql := "INSERT INTO t VALUES(1); SELECT 1" in
  classOf sql SCRIPT
  ∧ (∀ (Db Row : Type) prepare_all prepare_run stringifyRows stringifyResult
       (db : Db),
       query_database Db Row prepare_all prepare_run stringifyRows stringifyResult
         sql db
       = changesEnvelope prepare_run stringifyResult sql db)
  ∧ (query_database unit unit Scenario.emptyStore Scenario.oneStatementStore
       (λ _, "[]") Scenario.stringifyRunResult sql ()).1
    = Mcp.error_text
        "SQL Error: The supplied SQL string contains more than one statement"
  ∧ (scriptEnvelope (λ _ db, (Return (), db)) sql ()).1
    = Mcp.ok_text ("{" +:+ Js.dquote +:+ "executed" +:+ Js.dquote +:+ ":true}").
Proof.
  intros sql. split; [by vm_compute|]. split; [|by vm_compute].
  intros. by rewrite query_database_modes.
Qed.

End QueryDatabaseFacts.

(** ** [seedDatabase] *)
Module SeedFacts.
Import Seed SeedSpec.

Section Tables.
Context {R : Type}.
Variable rowid : R → Z.

Lemma insert_length (mk : Z → R) (t t' : Table R) :
  insert rowid mk t = Some t' → length (rows t') = S (length (rows t)).
Proof.
  unfold insert. case_match; [done|]. intros [= <-]. simpl.
  rewrite length_app. simpl. lia.
Qed.

Lemma insertMany_length (mks : list (Z → R)) (t t' : Table R) :
  insertMany rowid mks t = Some t' →
  length (rows t') = length (rows t) + length mks.
Proof.
  revert t. induction mks as [|mk mks IH]; intros t; simpl.
  - intros [= <-]. lia.
  - destruct (insert rowid mk t) as [t1|] eqn:Hins; [|done].
    intros Hmany%IH. apply insert_length in Hins. lia.
Qed.

(** Seeding one table: nothing happens to a table that has rows, and a table
    without rows gets all the seed rows or, when an insert fails, none. *)
Lemma seedTable_cases (seed : list (Z → R)) (t : Table R) :
  (length (rows t) ≠ 0 ∧ seedTable rowid seed t = (Return (), t))
  ∨ (length (rows t) = 0
     ∧ ∃ t', seedTable rowid seed t = (Return (), t')
             ∧ length (rows t') = length seed)
  ∨ (length (rows t) = 0
     ∧ ∃ msg, seedTable rowid seed t = (Throw msg, t)).
Proof.
  unfold seedTable, transaction. case_decide as Hcount; [|by left]. right.
  destruct (insertMany rowid seed t) as [t'|] eqn:Hmany.
  - left. split; [done|]. exists t'. split; [done|].
    apply insertMany_length in Hmany. lia.
  - right. split; [done|]. by eexists.
Qed.

Lemma seedTable_idempotent (seed : list (Z → R)) (t : Table R) :
  seedTable rowid seed (seedTable rowid seed t).2 = seedTable rowid seed t.
Proof.
  destruct (seedTable_cases seed t)
    as [[Hn Hs]|[[Hz (t' & Hs & Hlen)]|[Hz (msg & Hs)]]]; rewrite Hs; simpl;
    [done| |done].
  destruct seed as [|mk seed].
  - unfold seedTable, transaction in *. by rewrite decide_True in * by done.
  - unfold seedTable. rewrite decide_False; [done|]. simpl in Hlen. lia.
Qed.

End Tables.

Lemma seedDatabase_twice (db : Database) :
  seedDatabase (seedDatabase db).2 = seedDatabase db.
Proof.
  unfold seedDatabase.
  pose proof (seedTable_idempotent book_id seedBooks (createIfNotExists (books db)))
    as Hb.
  pose proof (seedTable_idempotent user_id seedUsers (createIfNotExists (users db)))
    as Hu.
  destruct (seedTable book_id seedBooks (createIfNotExists (books db)))
    as [[[]|msg] bt] eqn:Hbooks; simpl in *.
  - destruct (seedTable user_id seedUsers (createIfNotExists (users db)))
      as [[[]|msg] ut] eqn:Husers; simpl in *; by rewrite Hb, Hu.
  - by rewrite Hb.
Qed.

(** On a database in which nothing reacts to an insert, running
    [seedDatabase] on the state it left gives that state again, with the
    same outcome.  After a run both tables exist; a table that was there
    with rows in it is left as it is; a run that returns has put the 8 books
    in a [books] table that had no rows, and the 5 users in a [users] table
    that had none, after which neither count is zero. *)
Lemma seedDatabase_plain (db : Database) :
  let once := seedDatabase db in
  seedDatabase once.2 = once
  ∧ is_Some (books once.2) ∧ is_Some (users once.2)
  ∧ (∀ t, books db = Some t → rows t ≠ [] → books once.2 = Some t)
  ∧ (∀ t, users db = Some t → rows t ≠ [] → users once.2 = Some t)
  ∧ (once.1 = Return () →
       count (books once.2) = (if decide (count (books db) = 0) then 8
                               else count (books db))
       ∧ count (users once.2) = (if decide (count (users db) = 0) then 5
                                 else count (users db))
       ∧ count (books once.2) ≠ 0 ∧ count (users once.2) ≠ 0).
Proof.
  intros once. split; [|split; [|split; [|split; [|split]]]].
  - subst once. rewrite seedDatabase_twice. by destruct (seedDatabase db).
  - subst once. unfold seedDatabase.
    destruct (seedTable book_id seedBooks _) as [[[]|?] ?]; [|by eexists].
    destruct (seedTable user_id seedUsers _) as [[[]|?] ?]; by eexists.
  - subst once. unfold seedDatabase.
    destruct (seedTable book_id seedBooks _) as [[[]|?] ?]; [|by eexists].
    destruct (seedTable user_id seedUsers _) as [[[]|?] ?]; by eexists.
  - intros t Ht Hrows. subst once. unfold seedDatabase. rewrite Ht. simpl.
    unfold seedTable at 1. rewrite decide_False by by destruct (rows t).
    by destruct (seedTable user_id seedUsers _) as [[[]|?] ?].
  - intros t Ht Hrows. subst once. unfold seedDatabase. rewrite Ht. simpl.
    destruct (seedTable book_id seedBooks _) as [[[]|?] ?]; [|done].
    unfold seedTable. by rewrite decide_False by by destruct (rows t).
  - subst once. unfold seedDatabase, count.
    destruct (seedTable_cases book_id seedBooks (createIfNotExists (books db)))
      as [[Hb ->]|[[Hb (bt & -> & Hbl)]|[Hb (msg & ->)]]]; [| |done];
      (destruct (seedTable_cases user_id seedUsers (createIfNotExists (users db)))
        as [[Hu ->]|[[Hu (ut & -> & Hul)]|[Hu (msg & ->)]]]; [| |done]);
      intros _; simpl in *; repeat case_decide; try done; lia.
Qed.

Example seedDatabase_fresh_ids :
  (λ t, book_id <$> rows t)
    <$> books (seedDatabase {| books := None; users := None |}).2
  = Some [1; 2; 3; 4; 5; 6; 7; 8]%Z.
Proof. reflexivity. Qed.

(** When the last row id was handed out before, the transaction throws and
    leaves the table without rows; the next run does the same. *)
Example seedDatabase_full :
  let spent : Table Book := {| rows := []; seq := MAX_ROWID - 3 |} in
  let db := {| books := Some spent; users := None |} in
  seedDatabase db
  = (Throw "database or disk is full",
     {| books := Some spent; users := Some emptyTable |})
  ∧ seedDatabase (seedDatabase db).2 = seedDatabase db.
Proof. by vm_compute. Qed.

End SeedFacts.

(** ** [seedDatabase] and triggers *)
Module SeedTriggersFacts.
Import Seed SeedSpec SeedTriggers.

(** Without a trigger the inserts change their own table only. *)
Lemma insertEach_books (mks : list (Z → Book)) (t : Table Book)
    (u : option (Table User)) :
  insertEach (insertBook None) mks {| books := Some t; users := u |}
  = (λ t', {| books := Some t'; users := u |}) <$> insertMany book_id mks t.
Proof.
  revert t. induction mks as [|mk mks IH]; intros t; [done|].
  simpl. unfold insertBook. simpl.
  destruct (insert book_id mk t) as [t'|]; [|done]. simpl. apply IH.
Qed.

Lemma insertEach_users (mks : list (Z → User)) (b : option (Table Book))
    (t : Table User) :
  insertEach (insertUser None) mks {| books := b; users := Some t |}
  = (λ t', {| books := b; users := Some t' |}) <$> insertMany user_id mks t.
Proof.
  revert t. induction mks as [|mk mks IH]; intros t; [done|].
  simpl. unfold insertUser. simpl.
  destruct (insert user_id mk t) as [t'|]; [|done]. simpl. apply IH.
Qed.

(** On a database without triggers [seedDatabase] does to the tables what
    it does on a database in which nothing reacts to an insert. *)
Local Opaque seedBooks seedUsers.

Lemma seedDatabase_without_triggers (d : Database) :
  booksTrigger d = None → usersTrigger d = None →
  seedDatabase d
  = ((Seed.seedDatabase (data d)).1,
     {| data := (Seed.seedDatabase (data d)).2;
        booksTrigger := None; usersTrigger := None |}).
Proof.
  destruct d as [db bt ut]. simpl. intros -> ->.
  unfold seedDatabase, Seed.seedDatabase, seedTable, transaction. simpl.
  rewrite insertEach_books.
  destruct (decide (length (rows (createIfNotExists (books db))) = 0)).
  - destruct (insertMany book_id seedBooks (createIfNotExists (books db)))
      as [bt'|]; simpl; [|done].
    rewrite insertEach_users.
    destruct (decide (length (rows (createIfNotExists (users db))) = 0));
      [|done].
    by destruct (insertMany user_id seedUsers (createIfNotExists (users db))).
  - simpl. rewrite insertEach_users.
    destruct (decide (length (rows (createIfNotExists (users db))) = 0));
      [|done].
    by destruct (insertMany user_id seedUsers (createIfNotExists (users db))).
Qed.

Local Transparent seedBooks seedUsers.

(** C9, as the code has it.  On a database without a trigger on [books] or
    on [users], running [seedDatabase] on the state it left gives that state
    again, with the same outcome.  After a run both tables exist; a table
    that was there with rows in it is left as it is; a run that returns has
    put the 8 books in a [books] table that had no rows, and the 5 users in
    a [users] table that had none, after which neither count is zero, so the
    next run skips both inserts. *)
Theorem seedDatabase_idempotent_without_triggers (d : Database) :
  booksTrigger d = None → usersTrigger d = None →
  let once := seedDatabase d in
  seedDatabase once.2 = once
  ∧ is_Some (books (data once.2)) ∧ is_Some (users (data once.2))
  ∧ (∀ t, books (data d) = Some t → rows t ≠ [] → books (data once.2) = Some t)
  ∧ (∀ t, users (data d) = Some t → rows t ≠ [] → users (data once.2) = Some t)
  ∧ (once.1 = Return () →
       count (books (data once.2))
       = (if decide (count (books (data d)) = 0) then 8
          else count (books (data d)))
       ∧ count (users (data once.2))
         = (if decide (count (users (data d)) = 0) then 5
            else count (users (data d)))
       ∧ count (books (data once.2)) ≠ 0 ∧ count (users (data once.2)) ≠ 0).
Proof.
  intros Hbooks Husers once. subst once.
  rewrite (seedDatabase_without_triggers d Hbooks Husers). simpl.
  destruct (SeedFacts.seedDatabase_plain (data d))
    as (Htwice & Hb & Hu & Hkeepb & Hkeepu & Hcounts).
  split; [|done].
  rewrite seedDatabase_without_triggers by done. simpl. by rewrite Htwice.
Qed.

Lemma seedDatabase_idempotent_without_triggers_witness :
  let fresh := {| data := {| books := None; users := None |};
                  booksTrigger := None; usersTrigger := None |} in
  seedDatabase (seedDatabase fresh).2 = seedDatabase fresh
  ∧ count (books (data (seedDatabase fresh).2)) = 8
  ∧ count (users (data (seedDatabase fresh).2)) = 5.
Proof.
  intros fresh.
  destruct (seedDatabase_idempotent_without_triggers fresh eq_refl eq_refl)
    as (Htwice & _ & _ & _ & _ & Hcounts).
  destruct (Hcounts eq_refl) as (Hb & Hu & _).
  split; [exact Htwice|]. split; [exact Hb|exact Hu].
Defined.

(** C9, as the design document words it, fails on a database with a
    trigger.  With the trigger that deletes each new row of [books], on a
    [books] table without rows, a run inserts the 8 books, which the trigger
    deletes one by one; the count is zero again, so the next run inserts
    them once more, and the sequence of the table goes from 8 to 16 and then
    to 24: the state after two runs is not the state after one. *)
Lemma seedDatabase_twice_differs_with_trigger :
  let once := seedDatabase Scenario.emptied in
  let twice := seedDatabase once.2 in
  once.1 = Return () ∧ twice.1 = Return ()
  ∧ books (data once.2) = Some {| rows := []; seq := 16 |}
  ∧ books (data twice.2) = Some {| rows := []; seq := 24 |}
  ∧ twice ≠ once.
Proof.
  intros once twice. repeat split; by vm_compute.
Qed.

End SeedTriggersFacts.

(** ** The agent loop: what it returns *)
Module AgentAnswers.
Import Agent AgentSpec.

Section Answers.
Context {Json World : Type}.
Variable create : list (MessageParam Json) → World → completion (Message Json) * World.
Variable callTool : string → Json → World → completion Mcp.CallToolResult * World.

Lemma iterate_end_turn (n : nat) (st : State Json World) (response : Message Json)
    (w : World) :
  create (messages st) (world st) = (Return response, w) →
  stop_reason response = Some "end_turn" →
  (iterate create callTool (S n) st).1 = Return (answer response "(no text response)").
Proof. intros Hcreate Hstop. simpl. rewrite Hcreate. by rewrite decide_True. Qed.

Lemma iterate_other (n : nat) (st : State Json World) (response : Message Json)
    (w : World) :
  create (messages st) (world st) = (Return response, w) →
  stop_reason response ≠ Some "end_turn" →
  stop_reason response ≠ Some "tool_use" →
  (iterate create callTool (S n) st).1 = Return (answer response "(unexpected stop)").
Proof.
  intros Hcreate Hend Htool. simpl. rewrite Hcreate.
  by rewrite decide_False, decide_False.
Qed.

End Answers.

Lemma join_one_or_none (texts : list string) :
  length texts ≤ 1 → Js.join Js.nl texts = concatenation texts.
Proof.
  destruct texts as [|t [|t' texts]]; simpl; intros Hlen; [done| |lia].
  by rewrite JsFacts.append_nil_r.
Qed.

(** C6, as the code has it.  When the response of an oracle call has the stop
    reason [end_turn], the loop returns at once the text segments of that
    response joined with a line feed between two segments, or the placeholder
    [(no text response)] when that text is empty; with at most one text
    segment the joined text is the concatenation.  In the Dune scenario
    [processQuery] returns [Added Dune.]. *)
Theorem end_turn_returns_joined_text {Json World : Type}
    (create : list (MessageParam Json) → World → completion (Message Json) * World)
    (callTool : string → Json → World → completion Mcp.CallToolResult * World)
    (n : nat) (st : State Json World) (response : Message Json) (w : World) :
  create (messages st) (world st) = (Return response, w) →
  stop_reason response = Some "end_turn" →
  let joined := Js.join Js.nl (textBlocks (blocks response)) in
  (iterate create callTool (S n) st).1
  = Return (if decide (joined = "") then "(no text response)" else joined)
  ∧ (length (textBlocks (blocks response)) ≤ 1 →
     joined = concatenation (textBlocks (blocks response)))
  ∧ (processQuery (Scenario.scripted string) Scenario.serve
       "Add Dune to the database" Scenario.duneScript).1
    = Return "Added Dune.".
Proof.
  intros Hcreate Hstop joined. split; [|split].
  - by rewrite (iterate_end_turn create callTool n st response w).
  - apply join_one_or_none.
  - by vm_compute.
Qed.

Lemma end_turn_returns_joined_text_witness :
  (processQuery (Scenario.scripted string) Scenario.serve "Hello"
     [ {| blocks := [TextBlock "Hi."; TextBlock "How can I help?"];
          stop_reason := Some "end_turn" |} ]).1
  = Return ("Hi." +:+ Js.nl +:+ "How can I help?").
Proof.
  exact (proj1 (end_turn_returns_joined_text (Scenario.scripted string)
                  Scenario.serve 9
                  {| messages := [UserText "Hello"];
                     world := [ {| blocks := [TextBlock "Hi."; TextBlock "How can I help?"];
                                   stop_reason := Some "end_turn" |} ];
                     trace := [] |} _ _ eq_refl eq_refl)).
Defined.

(** C6, as the design document words it, fails: two text segments come back
    with a line feed between them, which their concatenation does not have. *)
Lemma end_turn_is_not_concatenation :
  let response : Message string :=
    {| blocks := [TextBlock "Added"; TextBlock "Dune."];
       stop_reason := Some "end_turn" |} in
  ¬ ((processQuery (Scenario.scripted string) Scenario.serve "Add Dune" [response]).1
     = Return (concatenation (textBlocks (blocks response)))).
Proof. by vm_compute. Qed.

(** C7, as the code has it.  A stop reason that is neither [end_turn] nor
    [tool_use] makes the loop return the joined text segments, as [end_turn]
    does, when that text is not empty; when it is empty the placeholder is
    [(unexpected stop)], not the one of [end_turn]. *)
Theorem other_stop_returns_text_or_own_placeholder {Json World : Type}
    (create : list (MessageParam Json) → World → completion (Message Json) * World)
    (callTool : string → Json → World → completion Mcp.CallToolResult * World)
    (n : nat) (st : State Json World) (response : Message Json) (w : World) :
  create (messages st) (world st) = (Return response, w) →
  stop_reason response ≠ Some "end_turn" →
  stop_reason response ≠ Some "tool_use" →
  let joined := Js.join Js.nl (textBlocks (blocks response)) in
  (iterate create callTool (S n) st).1
  = Return (if decide (joined = "") then "(unexpected stop)" else joined)
  ∧ (joined ≠ "" →
     ∀ create' w',
       create' (messages st) (world st)
       = (Return {| blocks := blocks response; stop_reason := Some "end_turn" |}, w') →
       (iterate create callTool (S n) st).1 = (iterate create' callTool (S n) st).1).
Proof.
  intros Hcreate Hend Htool joined. split.
  - by rewrite (iterate_other create callTool n st response w).
  - intros Hjoined create' w' Hcreate'.
    rewrite (iterate_other create callTool n st response w) by done.
    rewrite (iterate_end_turn create' callTool n st _ w' Hcreate') by done.
    unfold answer. simpl. fold joined. by rewrite !JsFacts.orElse_nonempty.
Qed.

Lemma other_stop_returns_text_or_own_placeholder_witness :
  (processQuery (Scenario.scripted string) Scenario.serve "Write a long essay"
     [ {| blocks := [TextBlock "Once upon a time"];
          stop_reason := Some "max_tokens" |} ]).1
  = Return "Once upon a time".
Proof.
  refine (proj1 (other_stop_returns_text_or_own_placeholder
                   (Scenario.scripted string) Scenario.serve 9
                   {| messages := [UserText "Write a long essay"];
                      world := [ {| blocks := [TextBlock "Once upon a time"];
                                    stop_reason := Some "max_tokens" |} ];
                      trace := [] |} _ _ eq_refl _ _)); by vm_compute.
Defined.

(** C7, as the design document words it, fails: without text the two
    branches return different placeholders. *)
Lemma other_stop_differs_from_end_turn :
  let silent (reason : string) : Message string :=
    {| blocks := []; stop_reason := Some reason |} in
  (processQuery (Scenario.scripted string) Scenario.serve "Hello"
     [silent "max_tokens"]).1 = Return "(unexpected stop)"
  ∧ (processQuery (Scenario.scripted string) Scenario.serve "Hello"
       [silent "end_turn"]).1 = Return "(no text response)"
  ∧ (processQuery (Scenario.scripted string) Scenario.serve "Hello"
       [silent "max_tokens"]).1
    ≠ (processQuery (Scenario.scripted string) Scenario.serve "Hello"
         [silent "end_turn"]).1.
Proof. by vm_compute. Qed.

End AgentAnswers.

(** ** The agent loop: turns, results and the ceiling *)
Module AgentProtocol.
Import Agent AgentSpec.

Section Protocol.
Context {Json World : Type}.
Variable create : list (MessageParam Json) → World → completion (Message Json) * World.
Variable callTool : string → Json → World → completion Mcp.CallToolResult * World.

Lemma oracleCalls_app (tr tr' : list (Event Json)) :
  oracleCalls (tr ++ tr') = oracleCalls tr + oracleCalls tr'.
Proof. unfold oracleCalls. by rewrite filter_app, length_app. Qed.

Lemma oracleCalls_oracle (m : list (MessageParam Json)) (tr : list (Event Json)) :
  oracleCalls (OracleCall m :: tr) = S (oracleCalls tr).
Proof. reflexivity. Qed.

Lemma oracleCalls_toolCalls (us : list (ToolUse Json)) :
  oracleCalls (toolCalls us) = 0.
Proof. induction us as [|u us IH]; [done|]. exact IH. Qed.

Lemma oracleCalls_calls (seen : list (MessageParam Json)) (turns : list (Turn Json)) :
  oracleCalls (calls seen turns) = length turns.
Proof.
  revert seen. induction turns as [|t turns IH]; intros seen; [done|]. simpl.
  by rewrite oracleCalls_oracle, oracleCalls_app, oracleCalls_toolCalls, IH.
Qed.

Lemma conversation_snoc (q : string) (turns : list (Turn Json)) (t : Turn Json) :
  conversation q (turns ++ [t]) = conversation q turns ++ turnMessages t.
Proof.
  unfold conversation. rewrite fmap_app, concat_app. simpl. reflexivity.
Qed.

Lemma calls_snoc (seen : list (MessageParam Json)) (turns : list (Turn Json)) (t : Turn Json) :
  calls seen (turns ++ [t])
  = calls seen turns
      ++ OracleCall (seen ++ concat (turnMessages <$> turns))
         :: toolCalls (toolUseBlocks t.1).
Proof.
  revert seen. induction turns as [|t' turns IH]; intros seen.
  - simpl. by rewrite !app_nil_r.
  - simpl. rewrite IH, <-!app_assoc. reflexivity.
Qed.

(** The [for ... of] loop over the requests: when no call throws it adds one
    result per request, in order and with the id of the request, after
    calling the tools in that order; when a call throws, the calls before it
    were made in that order. *)
Lemma dispatch_spec (us : list (ToolUse Json)) (acc : list ToolResultBlockParam)
    (w : World) (tr : list (Event Json)) :
  match dispatch callTool us acc w tr with
  | (Return results, _, tr') =>
      ∃ new, results = acc ++ new ∧ tool_use_id <$> new = id <$> us
             ∧ tr' = tr ++ toolCalls us
  | (Throw _, _, tr') =>
      ∃ k, tr' = tr ++ toolCalls (take k us)
  end.
Proof.
  revert acc w tr. induction us as [|u us IH]; intros acc w tr; simpl.
  - exists []. by rewrite !app_nil_r.
  - destruct (callTool (name u) (input u) w) as [[result|msg] w'].
    + specialize (IH (acc ++ [toolResult u result]) w'
                    (tr ++ [ToolCall (name u) (input u)])).
      destruct (dispatch callTool us _ w' _) as [[[results|msg] w''] tr'].
      * destruct IH as (new & -> & Hids & ->).
        exists (toolResult u result :: new). rewrite <-!app_assoc.
        split; [done|]. split; [|done]. rewrite fmap_cons, Hids. done.
      * destruct IH as [k ->]. exists (S k). by rewrite <-app_assoc.
    + by exists 1.
Qed.

Lemma toolCalls_are_tool_calls (us : list (ToolUse Json)) :
  Forall (λ e, isToolCall e = true) (toolCalls us).
Proof. induction us as [|u us IH]; by constructor. Qed.

(** The loop invariant: a loop entered after some completed turns ends after
    completed turns, each one answered, and its trace is the calls of these
    turns followed by the ending. *)
Lemma iterate_run (q : string) (n : nat) (st : State Json World) (turns : list (Turn Json)) :
  messages st = conversation q turns →
  trace st = calls [UserText q] turns →
  Forall answered turns →
  ∃ turns' e,
    trace (iterate create callTool n st).2 = calls [UserText q] turns' ++ e
    ∧ Forall answered turns'
    ∧ ending q turns' e
    ∧ leaves q turns' (iterate create callTool n st).1
        (messages (iterate create callTool n st).2)
    ∧ ((e = [] ∧ length turns' = length turns + n
        ∧ (iterate create callTool n st).1 = Return "(reached max iterations)")
       ∨ (e ≠ [] ∧ length turns' < length turns + n)).
Proof.
  revert st turns. induction n as [|n IH]; intros st turns Hmsgs Htrace Hturns.
  { exists turns, []. simpl. rewrite app_nil_r.
    split; [done|]. split; [done|]. split; [by left|]. split; [by left|].
    left. by rewrite Nat.add_0_r. }
  assert (∀ more,
    Forall (λ e, isToolCall e = true) more →
    ending q turns (OracleCall (messages st) :: more)
    ∧ (trace st ++ [OracleCall (messages st)]) ++ more
      = calls [UserText q] turns ++ OracleCall (messages st) :: more) as Hstop.
  { intros more Hmore. rewrite Htrace, Hmsgs, <-app_assoc.
    split; [right; by exists more|done]. }
  assert (∀ (out : completion string) (w : World),
    ∃ turns' e,
      trace (out, {| messages := messages st; world := w;
                     trace := trace st ++ [OracleCall (messages st)] |}).2
      = calls [UserText q] turns' ++ e
      ∧ Forall answered turns' ∧ ending q turns' e
      ∧ leaves q turns' out (messages st)
      ∧ ((e = [] ∧ length turns' = length turns + S n
          ∧ (out, {| messages := messages st; world := w;
                     trace := trace st ++ [OracleCall (messages st)] |}).1
            = Return "(reached max iterations)")
         ∨ (e ≠ [] ∧ length turns' < length turns + S n))) as Hreturn.
  { intros out w. destruct (Hstop [] ltac:(done)) as [He Htr].
    exists turns, [OracleCall (messages st)]. simpl. rewrite app_nil_r in Htr.
    split; [done|]. split; [done|]. split; [done|]. split; [by left|].
    right. split; [done|lia]. }
  simpl. destruct (create (messages st) (world st)) as [[response|msg] w];
    [|apply Hreturn].
  case_decide as Hend; [apply Hreturn|].
  case_decide as Htool; [|apply Hreturn].
  pose proof (dispatch_spec (toolUseBlocks (blocks response)) [] w
                (trace st ++ [OracleCall (messages st)])) as Hdispatch.
  destruct (dispatch callTool (toolUseBlocks (blocks response)) [] w _)
    as [[[results|msg] w'] tr'].
  - destruct Hdispatch as (new & -> & Hids & ->). simpl.
    destruct (IH {| messages := (messages st ++ [AssistantTurn (blocks response)])
                                  ++ [ToolResults new];
                    world := w';
                    trace := (trace st ++ [OracleCall (messages st)])
                             ++ toolCalls (toolUseBlocks (blocks response)) |}
                 (turns ++ [(blocks response, new)]))
      as (turns' & e & Htr & Hans & Hending & Hleaves & Hlen).
    + simpl. by rewrite conversation_snoc, Hmsgs, <-app_assoc.
    + simpl. by rewrite calls_snoc, Htrace, Hmsgs, <-app_assoc.
    + apply Forall_app. by repeat constructor.
    + exists turns', e. rewrite length_app in Hlen. simpl in Hlen.
      split; [done|]. split; [done|]. split; [done|]. split; [done|].
      destruct Hlen as [(? & ? & ?)|[? ?]]; [left|right]; repeat split; (done || lia).
  - destruct Hdispatch as [k ->].
    destruct (Hstop (toolCalls (take k (toolUseBlocks (blocks response))))
                (toolCalls_are_tool_calls _)) as [He Htr].
    exists turns, (OracleCall (messages st)
                   :: toolCalls (take k (toolUseBlocks (blocks response)))).
    simpl. split; [done|]. split; [done|]. split; [done|]. split.
    + right. exists (blocks response), msg. by rewrite Hmsgs.
    + right. split; [done|lia].
Qed.

(** Two ways to cut a list at an oracle call that tool calls precede. *)
Lemma cut_after_tool_calls (tc l1 l2 rest : list (Event Json))
    (m : list (MessageParam Json)) :
  Forall (λ e, isToolCall e = true) tc →
  l1 ++ OracleCall m :: l2 = tc ++ rest →
  ∃ l1', l1 = tc ++ l1' ∧ l1' ++ OracleCall m :: l2 = rest.
Proof.
  revert l1. induction tc as [|e tc IH]; intros l1 Htc Heq.
  - by exists l1.
  - inversion_clear Htc as [|?? He Htc']. destruct l1 as [|e' l1].
    + simpl in Heq. injection Heq as <- _. done.
    + simpl in Heq. injection Heq as -> Heq.
      destruct (IH l1 Htc' Heq) as (l1' & -> & Hrest). by exists l1'.
Qed.

Lemma first_oracle_call (cs tc post rest : list (Event Json))
    (m x : list (MessageParam Json)) :
  Forall (λ e, isToolCall e = true) cs →
  Forall (λ e, isToolCall e = true) tc →
  cs ++ OracleCall m :: post = tc ++ OracleCall x :: rest →
  cs = tc ∧ m = x ∧ post = rest.
Proof.
  revert tc. induction cs as [|c cs IH]; intros tc Hcs Htc Heq.
  - destruct tc as [|e tc]; simpl in Heq.
    + by injection Heq as -> ->.
    + injection Heq as <- _. by inversion_clear Htc.
  - inversion_clear Hcs as [|?? Hc Hcs']. destruct tc as [|e tc]; simpl in Heq.
    + injection Heq as -> _. done.
    + injection Heq as -> Heq. inversion_clear Htc as [|?? _ Htc'].
      by destruct (IH tc Hcs' Htc' Heq) as (-> & -> & ->).
Qed.

Lemma oracleCalls_tool_calls (more : list (Event Json)) :
  Forall (λ e, isToolCall e = true) more → oracleCalls more = 0.
Proof.
  induction 1 as [|e more He _ IH]; [done|].
  destruct e; [done|]. exact IH.
Qed.

(** What follows the calls of the turns, when it is not empty, starts with
    an oracle call on the conversation seen so far. *)
Lemma calls_head (seen : list (MessageParam Json)) (turns : list (Turn Json))
    (e : list (Event Json)) :
  (e = [] ∨ ∃ more, e = OracleCall (seen ++ concat (turnMessages <$> turns)) :: more) →
  calls seen turns ++ e = [] ∨ ∃ rest, calls seen turns ++ e = OracleCall seen :: rest.
Proof.
  intros He. destruct turns as [|t turns].
  - destruct He as [->|[more ->]]; [by left|right]. simpl.
    rewrite app_nil_r. by eexists.
  - right. simpl. by eexists.
Qed.

(** In the calls of answered turns, two oracle calls with only tool calls
    between them belong to one turn: the tool calls are the requests of its
    assistant message, in order, and the second oracle call sees the
    conversation of the first with that message and its results added. *)
Lemma calls_consecutive (turns : list (Turn Json)) (seen : list (MessageParam Json))
    (e pre cs post : list (Event Json)) (m m' : list (MessageParam Json)) :
  Forall answered turns →
  (e = [] ∨ ∃ more, e = OracleCall (seen ++ concat (turnMessages <$> turns)) :: more
                    ∧ Forall (λ e, isToolCall e = true) more) →
  calls seen turns ++ e = pre ++ OracleCall m :: cs ++ OracleCall m' :: post →
  Forall (λ e, isToolCall e = true) cs →
  ∃ bs rs, m' = m ++ [AssistantTurn bs; ToolResults rs]
           ∧ cs = toolCalls (toolUseBlocks bs)
           ∧ tool_use_id <$> rs = id <$> toolUseBlocks bs.
Proof.
  revert seen pre. induction turns as [|t turns IH];
    intros seen pre Hturns He Heq Hcs.
  - exfalso. change (calls seen []) with (@nil (Event Json)) in Heq.
    rewrite app_nil_l in Heq. apply (f_equal oracleCalls) in Heq.
    rewrite !oracleCalls_app, !oracleCalls_oracle, !oracleCalls_app,
      !oracleCalls_oracle in Heq.
    destruct He as [->|(more & -> & Hmore)].
    + change (oracleCalls []) with 0 in Heq. lia.
    + rewrite oracleCalls_oracle, (oracleCalls_tool_calls more Hmore) in Heq. lia.
  - inversion_clear Hturns as [|?? Ht Hturns'].
    assert (e = [] ∨ ∃ more,
              e = OracleCall ((seen ++ turnMessages t)
                              ++ concat (turnMessages <$> turns)) :: more
              ∧ Forall (λ e, isToolCall e = true) more) as He'.
    { destruct He as [->|(more & -> & Hmore)]; [by left|right].
      exists more. by rewrite <-app_assoc. }
    simpl in Heq. rewrite <-app_assoc in Heq. destruct pre as [|p pre].
    + simpl in Heq. injection Heq as <- Heq.
      destruct (calls_head (seen ++ turnMessages t) turns e) as [Hnil|[rest Hrest]].
      { destruct He' as [?|(more & ? & _)]; [by left|right; by eexists]. }
      * exfalso. rewrite Hnil, app_nil_r in Heq.
        apply (f_equal oracleCalls) in Heq.
        rewrite oracleCalls_app, oracleCalls_oracle, oracleCalls_toolCalls in Heq.
        lia.
      * rewrite Hrest in Heq. symmetry in Heq.
        destruct (first_oracle_call _ _ _ _ _ _ Hcs (toolCalls_are_tool_calls _) Heq)
          as (-> & -> & _).
        by exists t.1, t.2.
    + simpl in Heq. injection Heq as _ Heq. symmetry in Heq.
      destruct (cut_after_tool_calls _ _ _ _ _ (toolCalls_are_tool_calls _) Heq)
        as (pre' & -> & Hrest).
      by apply (IH (seen ++ turnMessages t) pre').
Qed.

(** When no tool call throws, the loop over the requests returns. *)
Lemma dispatch_returns (us : list (ToolUse Json)) (acc : list ToolResultBlockParam)
    (w : World) (tr : list (Event Json)) :
  (∀ name input w0, ∃ result w1, callTool name input w0 = (Return result, w1)) →
  ∃ results w', dispatch callTool us acc w tr = (Return results, w', tr ++ toolCalls us).
Proof.
  intros Htools. revert acc w tr. induction us as [|u us IH]; intros acc w tr.
  - exists acc, w. simpl. by rewrite app_nil_r.
  - simpl. destruct (Htools (name u) (input u) w) as (result & w1 & ->).
    destruct (IH (acc ++ [toolResult u result]) w1
                (tr ++ [ToolCall (name u) (input u)])) as (results & w' & ->).
    exists results, w'. by rewrite <-app_assoc.
Qed.

(** An oracle that always asks for tools takes the loop to its ceiling. *)
Lemma iterate_to_the_ceiling (n : nat) (st : State Json World) :
  (∀ msgs w0, ∃ response w1,
      create msgs w0 = (Return response, w1)
      ∧ stop_reason response = Some "tool_use") →
  (∀ name input w0, ∃ result w1, callTool name input w0 = (Return result, w1)) →
  (iterate create callTool n st).1 = Return "(reached max iterations)"
  ∧ oracleCalls (trace (iterate create callTool n st).2)
    = oracleCalls (trace st) + n.
Proof.
  intros Horacle Htools. revert st. induction n as [|n IH]; intros st.
  - simpl. split; [done|lia].
  - simpl. destruct (Horacle (messages st) (world st)) as (response & w & -> & Hstop).
    rewrite Hstop. rewrite decide_False by done. rewrite decide_True by done.
    destruct (dispatch_returns (toolUseBlocks (blocks response)) [] w
                (trace st ++ [OracleCall (messages st)]) Htools)
      as (results & w' & ->).
    destruct (IH {| messages := (messages st ++ [AssistantTurn (blocks response)])
                                  ++ [ToolResults results];
                    world := w';
                    trace := (trace st ++ [OracleCall (messages st)])
                             ++ toolCalls (toolUseBlocks (blocks response)) |})
      as [-> ->].
    split; [done|]. simpl.
    rewrite !oracleCalls_app, oracleCalls_toolCalls, oracleCalls_oracle.
    change (oracleCalls []) with 0. lia.
Qed.

Lemma processQuery_run (q : string) (w : World) :
  ∃ turns e,
    trace (processQuery create callTool q w).2 = calls [UserText q] turns ++ e
    ∧ Forall answered turns
    ∧ ending q turns e
    ∧ leaves q turns (processQuery create callTool q w).1
        (messages (processQuery create callTool q w).2)
    ∧ ((e = [] ∧ length turns = MAX_ITERATIONS
        ∧ (processQuery create callTool q w).1 = Return "(reached max iterations)")
       ∨ (e ≠ [] ∧ length turns < MAX_ITERATIONS)).
Proof.
  destruct (iterate_run q MAX_ITERATIONS
              {| messages := [UserText q]; world := w; trace := [] |} [])
    as (turns & e & Htrace & Hturns & He & Hleaves & Hlen); try done.
  by exists turns, e.
Qed.

(** The filter of the handler keeps the [tool_use] blocks, all of them and
    in their order. *)
Lemma toolUseBlocks_requests (bs : list (ContentBlock Json)) :
  toolUseBlocks bs = requests bs.
Proof.
  unfold toolUseBlocks. induction bs as [|b bs IH]; [done|].
  destruct b as [t|u|ty]; simpl;
    [exact IH|exact (f_equal (cons u) IH)|exact IH].
Qed.

Lemma served_ids (w : World) (us : list (ToolUse Json))
    (rs : list ToolResultBlockParam) (w' : World) :
  served callTool w us rs w' → tool_use_id <$> rs = id <$> us.
Proof.
  induction 1 as [|w u us envelope w1 r rs w' _ Hid _ _ IH]; [done|].
  rewrite !fmap_cons. by rewrite Hid, IH.
Qed.

(** The [for ... of] loop serves the requests one after the other, each in
    the world that the one before it left; when a call throws, the requests
    before it were served in that way and the loop ends in the world that
    the throwing call left. *)
Lemma dispatch_served (us : list (ToolUse Json)) (acc : list ToolResultBlockParam)
    (w : World) (tr : list (Event Json)) :
  match dispatch callTool us acc w tr with
  | (Return results, w', _) =>
      ∃ new, results = acc ++ new ∧ served callTool w us new w'
  | (Throw msg, w', _) =>
      ∃ before u after rs w2,
        us = before ++ u :: after
        ∧ served callTool w before rs w2
        ∧ callTool (name u) (input u) w2 = (Throw msg, w')
  end.
Proof.
  revert acc w tr. induction us as [|u us IH]; intros acc w tr; simpl.
  - exists []. rewrite app_nil_r. split; [done|constructor].
  - destruct (callTool (name u) (input u) w) as [[envelope|msg] w1] eqn:Hcall.
    + specialize (IH (acc ++ [toolResult u envelope]) w1
                    (tr ++ [ToolCall (name u) (input u)])).
      destruct (dispatch callTool us _ w1 _) as [[[results|msg] w'] tr'].
      * destruct IH as (new & -> & Hserved).
        exists (toolResult u envelope :: new). rewrite <-app_assoc.
        split; [done|]. by apply served_next with envelope w1.
      * destruct IH as (before & u' & after & rs & w2 & -> & Hserved & Hthrow).
        exists (u :: before), u', after, (toolResult u envelope :: rs), w2.
        split; [done|]. split; [|done]. by apply served_next with envelope w1.
    + exists [], u, us, [], w. split; [done|]. split; [constructor|done].
Qed.

Lemma completed_conversation (msgs : list (MessageParam Json)) (w : World)
    (turns : list (Turn Json)) (msgs' : list (MessageParam Json)) (w' : World) :
  completed create callTool msgs w turns msgs' w' →
  msgs' = msgs ++ concat (turnMessages <$> turns).
Proof.
  induction 1 as [msgs w|msgs w response w1 rs w2 turns msgs' w' _ _ _ _ IH].
  - by rewrite app_nil_r.
  - rewrite IH, <-app_assoc. reflexivity.
Qed.

Lemma completed_answered (msgs : list (MessageParam Json)) (w : World)
    (turns : list (Turn Json)) (msgs' : list (MessageParam Json)) (w' : World) :
  completed create callTool msgs w turns msgs' w' →
  Forall (λ t : Turn Json, tool_use_id <$> t.2 = id <$> requests t.1) turns.
Proof.
  induction 1 as [msgs w|msgs w response w1 rs w2 turns msgs' w' _ _ Hserved _ IH];
    constructor; [|done].
  by apply served_ids in Hserved.
Qed.

(** The loop with [n] iterations to go: it completes turns, at most [n],
    and then either the ceiling ends it or one more oracle call does. *)
Lemma iterate_completed (n : nat) (st : State Json World) :
  ∃ turns msgs w,
    completed create callTool (messages st) (world st) turns msgs w
    ∧ ((length turns = n ∧ atCeiling msgs w (iterate create callTool n st))
       ∨ (length turns < n
          ∧ stopped create callTool msgs w (iterate create callTool n st))).
Proof.
  revert st. induction n as [|n IH]; intros st.
  { exists [], (messages st), (world st). split; [constructor|]. by left. }
  assert (stopped create callTool (messages st) (world st)
            (iterate create callTool (S n) st) →
          ∃ turns msgs w,
            completed create callTool (messages st) (world st) turns msgs w
            ∧ ((length turns = S n
                ∧ atCeiling msgs w (iterate create callTool (S n) st))
               ∨ (length turns < S n
                  ∧ stopped create callTool msgs w
                      (iterate create callTool (S n) st)))) as Hstop.
  { intros Hstopped. exists [], (messages st), (world st).
    split; [constructor|]. right. split; [simpl; lia|done]. }
  simpl in *.
  destruct (create (messages st) (world st)) as [[response|msg] w1] eqn:Hcreate.
  2: { apply Hstop. left. by exists msg, w1. }
  case_decide as Hend.
  { apply Hstop. right. left. eexists response, w1, _.
    split; [done|]. split; [by rewrite Hend|done]. }
  case_decide as Htool.
  2: { apply Hstop. right. left. by eexists response, w1, _. }
  pose proof (dispatch_served (toolUseBlocks (blocks response)) [] w1
                (trace st ++ [OracleCall (messages st)])) as Hdispatch.
  destruct (dispatch callTool (toolUseBlocks (blocks response)) [] w1 _)
    as [[[results|msg] w2] tr'].
  - clear Hstop. destruct Hdispatch as (new & -> & Hserved).
    rewrite toolUseBlocks_requests in Hserved.
    destruct (IH {| messages := (messages st ++ [AssistantTurn (blocks response)])
                                  ++ [ToolResults ([] ++ new)];
                    world := w2; trace := tr' |})
      as (turns & msgs & w & Hcompleted & Hlast).
    simpl in Hcompleted. rewrite <-app_assoc in Hcompleted.
    exists ((blocks response, new) :: turns), msgs, w. split.
    + by apply completed_turn with w1 w2.
    + simpl. destruct Hlast as [[? ?]|[? ?]]; [left|right]; split; (lia || done).
  - apply Hstop. right. right.
    destruct Hdispatch as (before & u & after & rs & w' & Hus & Hserved & Hthrow).
    rewrite toolUseBlocks_requests in Hus.
    by exists response, w1, before, u, after, rs, w', msg, w2.
Qed.

(** C3. In the trace of [processQuery] the first call goes to the oracle with
    the user text alone, and any two oracle calls with only tool calls
    between them frame one turn: the tool calls are the requests of the
    assistant message of that turn, every [tool_use] block of it, one call
    per request and in the order of the requests; and the second oracle call
    sees the conversation of the first with exactly that assistant message
    and one tool-results message added, whose results carry the ids of the
    requests, one per request, in the same order.  The requests of a turn
    are served one after the other: the first in the world that the oracle
    call left, each later one in the world that the call before it left,
    and the next oracle call in the world that the last one left.  That is
    how the whole run goes: completed turns, at most the ceiling, and then
    the return at the ceiling or one more oracle call; when [processQuery]
    returns, the conversation it leaves is the user text followed by the
    turns. *)
Theorem processQuery_answers_every_request (q : string) (w : World) :
  let run := processQuery create callTool q w in
  let tr := trace run.2 in
  (∃ rest, tr = OracleCall [UserText q] :: rest)
  ∧ (∀ pre m cs m' post,
       tr = pre ++ OracleCall m :: cs ++ OracleCall m' :: post →
       Forall (λ e, isToolCall e = true) cs →
       ∃ bs rs, m' = m ++ [AssistantTurn bs; ToolResults rs]
                ∧ cs = toolCalls (requests bs)
                ∧ tool_use_id <$> rs = id <$> requests bs)
  ∧ (∃ turns msgs w',
       completed create callTool [UserText q] w turns msgs w'
       ∧ msgs = conversation q turns
       ∧ Forall (λ t : Turn Json, tool_use_id <$> t.2 = id <$> requests t.1) turns
       ∧ ((length turns = MAX_ITERATIONS ∧ atCeiling msgs w' run)
          ∨ (length turns < MAX_ITERATIONS
             ∧ stopped create callTool msgs w' run))
       ∧ (∀ text, run.1 = Return text → messages run.2 = conversation q turns)).
Proof.
  intros run tr. subst run tr. split; [|split].
  - destruct (processQuery_run q w) as (turns & e & -> & Hturns & He & Hleaves & Hlen).
    destruct (calls_head [UserText q] turns e) as [Hnil|Hhead]; [|exfalso|done].
    + destruct He as [->|(more & -> & _)]; [by left|right; by eexists].
    + apply app_eq_nil in Hnil as [Hcalls ->].
      destruct Hlen as [(_ & Hten & _)|[? _]]; [|done].
      by destruct turns.
  - destruct (processQuery_run q w) as (turns & e & -> & Hturns & He & Hleaves & Hlen).
    intros pre m cs m' post Heq Hcs.
    destruct (calls_consecutive turns [UserText q] e pre cs post m m'
                Hturns He Heq Hcs) as (bs & rs & ? & ? & ?).
    exists bs, rs. by rewrite <-toolUseBlocks_requests.
  - destruct (iterate_completed MAX_ITERATIONS
                {| messages := [UserText q]; world := w; trace := [] |})
      as (turns & msgs & w' & Hcompleted & Hlast).
    simpl in Hcompleted.
    pose proof (completed_conversation _ _ _ _ _ Hcompleted) as Hmsgs.
    change (msgs = conversation q turns) in Hmsgs.
    exists turns, msgs, w'. split; [done|]. split; [done|].
    split; [by apply completed_answered in Hcompleted|]. split; [done|].
    intros text Hreturn. rewrite <-Hmsgs.
    destruct Hlast as [[_ (_ & ? & _)]|[_ Hstopped]]; [done|].
    destruct Hstopped as [(msg & w1 & _ & Hthrow & _)
                          |[(response & w1 & text' & _ & _ & _ & ? & _)
                           |(response & w1 & before & u & after & rs & w2 & msg & w3
                             & _ & _ & _ & _ & _ & Hthrow & _)]];
      [|done|]; unfold processQuery in Hreturn; by rewrite Hthrow in Hreturn.
Qed.


End Protocol.

Lemma processQuery_answers_every_request_witness :
  ∃ bs rs,
    [UserText "Add Dune and count the books";
     AssistantTurn [TextBlock "Adding Dune.";
                    ToolUseBlock Scenario.insertDune;
                    ToolUseBlock Scenario.countBooks];
     ToolResults [ {| tool_use_id := "toolu_01";
                      content := Scenario.stringifyRunResult
                                   {| QueryDatabase.changes := 1;
                                      QueryDatabase.lastInsertRowid := 9 |};
                      is_error := false |};
                   {| tool_use_id := "toolu_02";
                      content := Scenario.stringifyCounts [9%Z];
                      is_error := false |} ]]
    = [UserText "Add Dune and count the books"] ++ [AssistantTurn bs; ToolResults rs]
    ∧ [ToolCall "query_database" "INSERT INTO books(title) VALUES ('Dune')";
       ToolCall "query_database" "SELECT COUNT(id) AS cnt FROM books"]
      = toolCalls (requests bs)
    ∧ tool_use_id <$> rs = id <$> requests bs.
Proof.
  destruct (processQuery_answers_every_request Scenario.scriptedOracle
              Scenario.countingServer "Add Dune and count the books"
              (Scenario.addAndCountScript, 8%Z)) as (_ & Hturn & _).
  apply (Hturn [] _ _ _ []); [reflexivity|]. by repeat constructor.
Defined.


(** The oracle of the scenario counts its calls: there are 10 of them, not 11. *)
Example relentless_oracle_is_called_ten_times :
  world (processQuery Scenario.relentless Scenario.serve "Add Dune" 0).2 = 10.
Proof. reflexivity. Qed.

End AgentProtocol.

(** ** The file tools *)
Module FilesFacts.
Import Sandbox PathSpec PathFacts SandboxFacts Files.

Lemma fold_step_noop (segs stack : list string) :
  Forall (λ seg, seg = "" ∨ seg = ".") segs →
  fold_left (path.step false) segs stack = stack.
Proof.
  induction 1 as [|seg segs [->| ->] _ IH]; [done|exact IH..].
Qed.

(** Text after a separator that holds no name does not change the names. *)
Lemma names_noop_tail (p tail : string) :
  Forall (λ seg, seg = "" ∨ seg = ".") (path.segments tail) →
  names (p +:+ "/" +:+ tail) = names p.
Proof.
  intros Htail. unfold names, path.normalizeSegments.
  by rewrite segments_app_slash, fold_left_app, fold_step_noop.
Qed.

Lemma resolve_is_absolute (cwd : string) (args : list string) :
  path.isAbsolute cwd = true →
  path.isAbsolute (path.resolve cwd args) = true
  ∧ path.resolve cwd args ≠ "".
Proof. intros Hcwd. by rewrite (resolve_absolute cwd args Hcwd). Qed.

(** Resolving an absolute path that [resolve] produced gives it back. *)
Lemma resolve_resolved (cwd : string) (args before : list string) :
  path.isAbsolute cwd = true →
  path.resolve cwd (before ++ [path.resolve cwd args]) = path.resolve cwd args.
Proof.
  intros Hcwd. destruct (resolve_is_absolute cwd args Hcwd) as [Habs Hne].
  set (r := path.resolve cwd args) in *.
  assert (path.gather (cwd :: before ++ [r]) = (r +:+ "/" +:+ "", true)) as Hgather.
  { assert (path.gather [r] = (r +:+ "/" +:+ "", true)) as Hr.
    { simpl. by rewrite bool_decide_eq_false_2, Habs. }
    change (cwd :: before ++ [r]) with ((cwd :: before) ++ [r]).
    induction (cwd :: before) as [|a l IH]; [done|].
    simpl. simpl in IH. by rewrite IH. }
  unfold path.resolve at 1. rewrite Hgather. simpl.
  change (path.normalizeString (r +:+ "/" +:+ "") false)
    with (Js.join "/" (names (r +:+ "/" +:+ ""))).
  rewrite names_noop_tail by by repeat constructor; left.
  subst r. by rewrite <-resolve_names.
Qed.

(** X1. A path that [safePath] returned is accepted again, unchanged. *)
Theorem safePath_idempotent (cwd userPath resolved : string) :
  path.isAbsolute cwd = true →
  safePath cwd userPath = Return resolved →
  safePath cwd resolved = Return resolved.
Proof.
  intros Hcwd Hsafe.
  destruct (safePath_cases cwd userPath) as [[Hin Hret]|[_ Hthrow]];
    [|by rewrite Hthrow in Hsafe].
  rewrite Hret in Hsafe. injection Hsafe as <-.
  pose proof (resolve_resolved cwd [WORKSPACE_DIR cwd; userPath]
                [WORKSPACE_DIR cwd] Hcwd) as Hagain. simpl in Hagain.
  destruct (safePath_cases cwd (path.resolve cwd [WORKSPACE_DIR cwd; userPath]))
    as [[_ Hret']|[Hout _]].
  - by rewrite Hret', Hagain.
  - by rewrite Hagain in Hout.
Qed.

Lemma safePath_idempotent_witness :
  safePath "/a" "/a/workspace/sub/a.txt" = Return "/a/workspace/sub/a.txt".
Proof.
  apply (safePath_idempotent "/a" "sub/../sub/./a.txt"); reflexivity.
Defined.

(** X2. The workspace root itself is always accepted: as [.], as the empty
    path, which is what [list_directory] resolves when its path is omitted. *)
Theorem safePath_root (cwd : string) :
  path.isAbsolute cwd = true →
  safePath cwd "." = Return (WORKSPACE_DIR cwd)
  ∧ safePath cwd "" = Return (WORKSPACE_DIR cwd).
Proof.
  intros Hcwd.
  destruct (resolve_is_absolute cwd [cwd; "workspace"] Hcwd) as [Habs Hne].
  fold (WORKSPACE_DIR cwd) in Habs, Hne.
  assert (∀ tail acc,
    path.gather [tail] = (acc, false) →
    Forall (λ seg, seg = "" ∨ seg = ".") (path.segments acc) →
    path.resolve cwd [WORKSPACE_DIR cwd; tail] = WORKSPACE_DIR cwd) as Hroot.
  { intros tail acc Htail Hacc. unfold path.resolve.
    change (path.gather (cwd :: [WORKSPACE_DIR cwd; tail]))
      with (let '(a, absolute) := path.gather [WORKSPACE_DIR cwd; tail] in
            if absolute then (a, true)
            else if bool_decide (cwd = "") then (a, false)
                 else (cwd +:+ "/" +:+ a, path.isAbsolute cwd)).
    change (path.gather [WORKSPACE_DIR cwd; tail])
      with (let '(a, absolute) := path.gather [tail] in
            if absolute then (a, true)
            else if bool_decide (WORKSPACE_DIR cwd = "") then (a, false)
                 else (WORKSPACE_DIR cwd +:+ "/" +:+ a,
                       path.isAbsolute (WORKSPACE_DIR cwd))).
    rewrite Htail, bool_decide_eq_false_2, Habs by done. simpl.
    change (path.normalizeString (WORKSPACE_DIR cwd +:+ "/" +:+ acc) false)
      with (Js.join "/" (names (WORKSPACE_DIR cwd +:+ "/" +:+ acc))).
    rewrite names_noop_tail by done.
    unfold WORKSPACE_DIR. by rewrite <-resolve_names. }
  split.
  - destruct (safePath_cases cwd ".") as [[_ ->]|[Hout _]].
    + f_equal. apply (Hroot "." "./"); [done|by repeat constructor; auto].
    + destruct Hout. left. apply (Hroot "." "./"); [done|by repeat constructor; auto].
  - destruct (safePath_cases cwd "") as [[_ ->]|[Hout _]].
    + f_equal. apply (Hroot "" ""); [done|by repeat constructor; auto].
    + destruct Hout. left. apply (Hroot "" ""); [done|by repeat constructor; auto].
Qed.

Lemma safePath_root_witness :
  safePath "/srv/app" "." = Return "/srv/app/workspace".
Proof. exact (proj1 (safePath_root "/srv/app" eq_refl)). Defined.

Section Tools.
Variable cwd : string.
Variable readdir : string → Fs.t → completion (list Dirent).
Variable writeFault : option string.

(** X3. What [write_file] wrote, [read_file] reads back: after a call of
    [write_file] that returned, [read_file] on the same path returns the
    content given, whatever was there before. *)
Theorem write_then_read (filePath content : string) (fs fs' : Fs.t)
    (envelope : Mcp.CallToolResult) :
  WriteFile.write_file cwd writeFault filePath content fs = (Return envelope, fs') →
  read_file cwd filePath fs' = Return (Mcp.ok_text content).
Proof.
  unfold WriteFile.write_file, read_file, readFile.
  destruct (safePath cwd filePath) as [resolved|msg]; [|done].
  destruct (Fs.mkdir (path.dirname resolved) fs) as [[[]|msg] fs1]; [|done].
  unfold Fs.writeFile.
  destruct (fs1 !! resolved) as [[data|]|]; [|done|];
    (destruct writeFault as [msg|]; [done|]); intros [= _ <-];
    by rewrite lookup_insert_eq.
Qed.

(** X5. [read_file] returns nothing but the content of the regular file at
    the resolved path, and only when that path lies inside the workspace;
    for a path that escapes it throws before it looks at the file system. *)
Theorem read_file_only_inside (filePath : string) (fs : Fs.t) :
  (∀ envelope, read_file cwd filePath fs = Return envelope →
     ∃ resolved data,
       envelope = Mcp.ok_text data ∧ fs !! resolved = Some (Fs.File data)
       ∧ inside (WORKSPACE_DIR cwd) resolved
       ∧ (path.isAbsolute cwd = true →
          names (WORKSPACE_DIR cwd) `prefix_of` names resolved))
  ∧ (¬ inside (WORKSPACE_DIR cwd) (path.resolve cwd [WORKSPACE_DIR cwd; filePath]) →
     read_file cwd filePath fs = Throw ("Path escapes workspace: " +:+ filePath)).
Proof.
  unfold read_file, readFile.
  destruct (safePath_cases cwd filePath) as [[Hin ->]|[Hout ->]]; [|by split].
  split; [|done]. intros envelope.
  destruct (fs !! path.resolve cwd [WORKSPACE_DIR cwd; filePath])
    as [[data|]|] eqn:Hfile; [|done..].
  intros [= <-]. eexists _, data. split; [done|]. split; [done|]. split; [done|].
  intros Hcwd. by apply inside_prefix.
Qed.

Lemma entryLine_head (e : Dirent) : ∃ rest, entryLine e = String "["%char rest.
Proof. unfold entryLine. destruct (isDirectory e); by eexists. Qed.

(** X6. [list_directory] answers [(empty directory)] exactly for a directory
    without entries; otherwise its text is the lines of the entries, joined
    by line feeds, which is never empty and never that placeholder. *)
Theorem list_directory_placeholder (dirPath : option string) (fs : Fs.t)
    (resolved : string) (entries : list Dirent) :
  safePath cwd (default "." dirPath) = Return resolved →
  readdir resolved fs = Return entries →
  ∃ text,
    list_directory cwd readdir dirPath fs = Return (Mcp.ok_text text)
    ∧ (entries = [] → text = "(empty directory)")
    ∧ (entries ≠ [] →
       text = Js.join Js.nl (entryLine <$> entries)
       ∧ text ≠ "" ∧ text ≠ "(empty directory)").
Proof.
  intros Hsafe Hread. unfold list_directory. rewrite Hsafe, Hread.
  eexists. split; [done|]. split; [by intros ->|].
  intros Hentries. destruct entries as [|e entries]; [done|].
  assert (∃ rest, Js.join Js.nl (entryLine <$> e :: entries) = String "["%char rest)
    as [rest Hrest].
  { destruct (entryLine_head e) as [rest Hrest]. rewrite fmap_cons.
    destruct (entryLine <$> entries) as [|l ls].
    - by exists rest.
    - rewrite JsFacts.join_cons, Hrest. by eexists. }
  rewrite Hrest. by rewrite JsFacts.orElse_nonempty.
Qed.

End Tools.

Lemma write_then_read_witness :
  read_file "/srv/app" "notes/today.txt"
    (WriteFile.write_file "/srv/app" None "notes/today.txt" "buy milk"
       Scenario.started).2
  = Return (Mcp.ok_text "buy milk").
Proof.
  eapply (write_then_read "/srv/app" None "notes/today.txt" "buy milk"
            Scenario.started).
  by vm_compute.
Defined.

Lemma read_file_only_inside_witness :
  read_file "/srv/app" "../.env"
    {[ "/srv/app/.env" := Fs.File "SECRET=1" ]}
  = Throw "Path escapes workspace: ../.env".
Proof.
  apply (read_file_only_inside "/srv/app" "../.env").
  intros [Heq|[rest Heq]]; by vm_compute in Heq.
Defined.

Lemma list_directory_placeholder_witness :
  ∃ text,
    list_directory "/srv/app"
      (λ _ _, Return [ {| name := "data.db"; isDirectory := false |};
                       {| name := ".tmp"; isDirectory := true |} ])
      None Scenario.started
    = Return (Mcp.ok_text text)
    ∧ text = "[file] data.db" +:+ Js.nl +:+ "[dir] .tmp".
Proof.
  destruct (list_directory_placeholder "/srv/app"
              (λ _ _, Return [ {| name := "data.db"; isDirectory := false |};
                               {| name := ".tmp"; isDirectory := true |} ])
              None Scenario.started "/srv/app/workspace" _ eq_refl eq_refl)
    as (text & Hlist & _ & Hlines).
  exists text. split; [exact Hlist|]. by destruct Hlines as [-> _].
Defined.

End FilesFacts.

(** ** Trimming *)
Module TrimFacts.
Import Js TextSpec QuerySpec.

Lemma rev_app_spec (s acc : string) :
  String.rev_app s acc = String.rev s +:+ acc.
Proof.
  unfold String.rev. revert acc. induction s as [|c s IH]; intros acc; [done|].
  simpl. rewrite (IH (String c acc)), (IH (String c "")).
  by rewrite JsFacts.append_assoc.
Qed.

Lemma rev_cons (c : ascii) (s : string) :
  String.rev (String c s) = String.rev s +:+ String c "".
Proof. unfold String.rev at 1. simpl. apply rev_app_spec. Qed.

Lemma rev_append (s t : string) :
  String.rev (s +:+ t) = String.rev t +:+ String.rev s.
Proof.
  induction s as [|c s IH].
  - by rewrite JsFacts.append_nil_r.
  - rewrite JsFacts.append_cons, !rev_cons, IH. by rewrite JsFacts.append_assoc.
Qed.

Lemma rev_involutive (s : string) : String.rev (String.rev s) = s.
Proof.
  induction s as [|c s IH]; [done|]. by rewrite rev_cons, rev_append, IH.
Qed.

Lemma trimStart_clean (s : string) : startsClean (trimStart s).
Proof.
  induction s as [|c s IH]; [done|]. simpl.
  by destruct (isWhiteSpace c) eqn:Hc.
Qed.

(** [trim] leaves no white space at either end. *)
Lemma trim_clean (s : string) : startsClean (trim s) ∧ endsClean (trim s).
Proof.
  unfold trim, endsClean. rewrite rev_involutive. split; [|apply trimStart_clean].
  destruct (QueryDatabaseFacts.trimStart_split (String.rev (trimStart s)))
    as (ws & Hsplit & _).
  apply (f_equal String.rev) in Hsplit. rewrite rev_involutive, rev_append in Hsplit.
  pose proof (trimStart_clean s) as Hclean. rewrite Hsplit in Hclean.
  by destruct (String.rev (trimStart (String.rev (trimStart s)))).
Qed.

End TrimFacts.

(** ** [run_code] and [fetch_url]: what comes back *)
Module OutputFacts.
Import TextSpec.

Section RunCode.
Import RunCode.
Variable cwd : string.
Variable execFileAsync :
  string → list string → Z → string → Fs.t → ExecOutcome * Fs.t.
Variable writeFault : option string.


(** X8. With a child that leaves the file system alone and a temporary name
    that is free, [run_code] leaves the file system as it found it, but for
    the scratch directory: the script it wrote is gone on every path.  When
    the script was written and its removal is refused, the script is all
    that stays. *)
Theorem run_code_leaves_no_residue (uuid code : string) (fs : Fs.t) :
  (∀ data, fs !! tmpDir cwd ≠ Some (Fs.File data)) →
  <[tmpDir cwd := Fs.Dir]> fs !! tmpFile cwd uuid = None →
  (∀ file fs0, (execFileAsync "python3" [file] 10000%Z
                  (Sandbox.WORKSPACE_DIR cwd) fs0).2 = fs0) →
  (run_code cwd execFileAsync writeFault None uuid code fs).2
  = <[tmpDir cwd := Fs.Dir]> fs
  ∧ (writeFault = None →
     ∀ refusal,
       (run_code cwd execFileAsync writeFault (Some refusal) uuid code fs).2
       = <[tmpFile cwd uuid := Fs.File code]> (<[tmpDir cwd := Fs.Dir]> fs)).
Proof.
  intros Hdir Hfree Hquiet. unfold run_code.
  assert (Fs.mkdir (tmpDir cwd) fs = (Return (), <[tmpDir cwd := Fs.Dir]> fs))
    as ->.
  { unfold Fs.mkdir. destruct (fs !! tmpDir cwd) as [[data|]|] eqn:Hlook.
    - by destruct (Hdir data).
    - by rewrite insert_id.
    - done. }
  set (fs0 := <[tmpDir cwd := Fs.Dir]> fs) in *.
  set (file := tmpFile cwd uuid) in *.
  assert (∀ data, (Fs.unlink None file (<[file := Fs.File data]> fs0)).2 = fs0)
    as Hunlink.
  { intros data. unfold Fs.unlink. rewrite lookup_insert_eq. simpl.
    by apply delete_insert_id. }
  assert (∀ refusal data,
            (Fs.unlink (Some refusal) file (<[file := Fs.File data]> fs0)).2
            = <[file := Fs.File data]> fs0) as Hrefused.
  { intros refusal data. apply RunCodeFacts.unlink_refused. }
  unfold run_code_try, Fs.writeFile. rewrite Hfree.
  destruct writeFault as [msg|].
  - split; [|done].
    specialize (Hunlink ""). by destruct (Fs.unlink None file _).
  - specialize (Hquiet file (<[file := Fs.File code]> fs0)).
    destruct (execFileAsync "python3" [file] 10000%Z _ _) as [[out err|why msg] fs2];
      simpl in Hquiet; subst fs2; specialize (Hunlink code);
      (split; [by destruct (Fs.unlink None file _)|]);
      intros _ refusal; specialize (Hrefused refusal code);
      by destruct (Fs.unlink (Some refusal) file _).
Qed.

End RunCode.


Lemma run_code_leaves_no_residue_witness :
  (RunCode.run_code "/srv/app" Scenario.hangs None None "3f2a" "while True: pass"
     Scenario.started).2
  = <[ "/srv/app/workspace/.tmp" := Fs.Dir ]> Scenario.started.
Proof.
  apply (run_code_leaves_no_residue "/srv/app" Scenario.hangs None "3f2a"
           "while True: pass" Scenario.started).
  - intros data. by vm_compute.
  - by vm_compute.
  - reflexivity.
Defined.

Section FetchUrl.
Import FetchUrl.

Lemma take_length_le (n : nat) (s : string) : String.length (Js.take n s) ≤ n.
Proof.
  revert s. induction n as [|n IH]; intros [|c s]; simpl; try lia.
  specialize (IH s). lia.
Qed.

Lemma length_append (s t : string) :
  String.length (s +:+ t) = String.length s + String.length t.
Proof.
  induction s as [|c s IH]; [done|]. rewrite JsFacts.append_cons. simpl.
  by rewrite IH.
Qed.

(** X9. A successful [fetch_url] never returns more than 5016 code units:
    5000 of the body and the 16 of the truncation marker. *)
Theorem fetch_url_bounded (fetch : string → completion Response) (url : string)
    (envelope : Mcp.CallToolResult) :
  fetch_url fetch url = Return envelope →
  Mcp.isError envelope = None →
  ∃ text, envelope = Mcp.ok_text text ∧ (Js.length text ≤ 5016)%Z.
Proof.
  unfold fetch_url. destruct (fetch url) as [res|msg]; [|done].
  destruct (ok res); simpl; [|by intros [= <-]].
  destruct (text res) as [body|msg]; [|done]. intros [= <-] _.
  eexists. split; [done|]. unfold Js.length.
  destruct (Z.gtb_spec (Z.of_nat (String.length body)) 5000) as [Hlong|Hshort];
    [|lia].
  rewrite length_append. unfold Js.slice0.
  pose proof (take_length_le (Z.to_nat 5000) body).
  change (String.length truncationMarker) with 16. lia.
Qed.

End FetchUrl.

Lemma fetch_url_bounded_witness :
  ∃ text,
    FetchUrl.fetch_url
      (Scenario.answering 200 "OK" (Scenario.filler (Z.to_nat 9000)))
      "https://example.com" = Return (Mcp.ok_text text)
    ∧ (Js.length text ≤ 5016)%Z.
Proof.
  destruct (FetchUrl.fetch_url
              (Scenario.answering 200 "OK" (Scenario.filler (Z.to_nat 9000)))
              "https://example.com") as [envelope|msg] eqn:Hfetch;
    [|by vm_compute in Hfetch].
  destruct (fetch_url_bounded _ _ envelope Hfetch) as (text & -> & Hlen).
  - vm_compute in Hfetch. by injection Hfetch as <-.
  - by exists text.
Defined.

End OutputFacts.

(** ** The tools that call remote services *)
Module RemoteFacts.
Import JsText RemoteSpec.

Lemma allComponentChars_app (s t : string) :
  allComponentChars (s +:+ t) = allComponentChars s && allComponentChars t.
Proof.
  induction s as [|c s IH]; [done|]. rewrite JsFacts.append_cons. simpl.
  by rewrite IH, andb_assoc.
Qed.

Lemma encode_char (c : ascii) :
  allComponentChars (if isUnreserved c then String c "" else percentEncode c) = true.
Proof. destruct c as [[] [] [] [] [] [] [] []]; by vm_compute. Qed.

Lemma encodeURIComponent_chars (s : string) :
  allComponentChars (encodeURIComponent s) = true.
Proof.
  induction s as [|c s IH]; [done|]. simpl.
  by rewrite allComponentChars_app, encode_char, IH.
Qed.

Lemma allComponentChars_occurs (s : string) (c : ascii) :
  allComponentChars s = true → occursIn c s → isComponentChar c = true.
Proof.
  intros Hs (before & after & ->). rewrite allComponentChars_app in Hs.
  apply andb_true_iff in Hs as [_ Hs]. simpl in Hs.
  by apply andb_true_iff in Hs as [Hc _].
Qed.

(** No character of an encoded component is a delimiter of a URL. *)
Lemma encodeURIComponent_no_delimiter (s : string) (c : ascii) :
  occursIn c (encodeURIComponent s) →
  isComponentChar c = true
  ∧ c ∉ ["/"; "?"; "#"; "&"; "="; ":"; "@"; " "]%char.
Proof.
  intros Hc%(allComponentChars_occurs _ _ (encodeURIComponent_chars s)).
  split; [done|]. rewrite !elem_of_cons, elem_of_nil.
  intros [->|[->|[->|[->|[->|[->|[->|[->|[]]]]]]]]]; by vm_compute in Hc.
Qed.

Section Weather.
Import Weather.


End Weather.


Section Sports.
Import Sports.

Lemma assoc_None (key : string) (table : list (string * Endpoint)) :
  assoc key table = None ↔ key ∉ (fst <$> table).
Proof.
  induction table as [|[k e] table IH]; simpl.
  - split; [intros _; apply not_elem_of_nil|done].
  - rewrite not_elem_of_cons. case_decide as Hk.
    + split; [done|]. by intros [? _].
    + rewrite IH. split; [by intros ?|by intros [_ ?]].
Qed.

Lemma assoc_Some (key : string) (table : list (string * Endpoint)) (e : Endpoint) :
  assoc key table = Some e → (key, e) ∈ table.
Proof.
  induction table as [|[k e'] table IH]; simpl; [done|].
  case_decide as Hk.
  - intros [= <-]. subst k. apply elem_of_cons. by left.
  - intros He. apply elem_of_cons. right. by apply IH.
Qed.

Lemma lookup_None (key : string) :
  lookup key = None ↔ (key ∉ keys) ∧ (key ∉ objectPrototypeNames).
Proof.
  unfold lookup, keys. rewrite <-assoc_None.
  destruct (assoc key SPORT_ENDPOINTS); [by split; [|intros [? _]]|].
  case_decide; [by split; [|intros [_ ?]]|done].
Qed.

Lemma scoreboardUrl_listed (key : string) (sport : Property) :
  lookup key = Some sport → scoreboardUrl sport ∈ scoreboardUrls.
Proof.
  unfold lookup, scoreboardUrls.
  destruct (assoc key SPORT_ENDPOINTS) as [e|] eqn:He.
  - intros [= <-]. apply elem_of_app. left. apply assoc_Some in He.
    apply list_elem_of_fmap. by exists (key, e).
  - case_decide; [|done]. intros [= <-]. apply elem_of_app. right.
    apply list_elem_of_singleton. done.
Qed.

(** X11. [get_sports_scores] never puts the text of the league into the
    address it requests: a league whose lower-case form is neither a key of
    the table nor a property name that objects inherit gets the
    [Unknown league] error, with [isError] and without any request; every
    other league makes one request, to one of the 18 fixed scoreboard
    addresses, and is handled alike in any mix of cases.  The inherited name
    [constructor] is not reported as unknown. *)
Theorem get_sports_scores_requests
    (server : string → completion (Remote.JsonResponse Scoreboard))
    (league : string) (log : list string) :
  let run := get_sports_scores (list string) (Recorder.fetch server) league log in
  let key := toLowerCase league in
  (lookup key = None ↔ (key ∉ keys) ∧ (key ∉ objectPrototypeNames))
  ∧ (lookup key = None →
       run = (Return (Mcp.error_text
                        ("Unknown league " +:+ Js.dquote +:+ league +:+ Js.dquote
                         +:+ ". Supported: " +:+ Js.join ", " keys)), log))
  ∧ (∀ sport, lookup key = Some sport →
       run.2 = log ++ [scoreboardUrl sport]
       ∧ scoreboardUrl sport ∈ scoreboardUrls
       ∧ ∀ league', toLowerCase league' = key →
           get_sports_scores (list string) (Recorder.fetch server) league' log = run)
  ∧ length scoreboardUrls = 18
  ∧ lookup "constructor" = Some Inherited.
Proof.
  intros run key. split; [apply lookup_None|].
  split; [|split; [|done]].
  - intros Hnone. subst run. unfold get_sports_scores. fold key. by rewrite Hnone.
  - intros sport Hsport. split; [|split].
    + subst run. unfold get_sports_scores, Recorder.fetch. fold key.
      rewrite Hsport. destruct (server (scoreboardUrl sport)) as [res|msg]; [|done].
      destruct (negb (Remote.ok res)); [done|].
      destruct (Remote.json res) as [data|msg]; [|done]. by case_decide.
    + by apply (scoreboardUrl_listed key).
    + intros league' Hkey. subst run. unfold get_sports_scores.
      fold key. by rewrite Hkey, Hsport.
Qed.

End Sports.

Lemma get_sports_scores_requests_witness :
  (Sports.get_sports_scores (list string)
     (Recorder.fetch (λ _, Throw "fetch failed")) "NBA" []).2
  = ["https://site.api.espn.com/apis/site/v2/sports/basketball/nba/scoreboard"].
Proof.
  destruct (get_sports_scores_requests (λ _, Throw "fetch failed") "NBA" [])
    as (_ & _ & Hknown & _).
  by destruct (Hknown (Sports.Entry {| Sports.category := "basketball";
                                       Sports.league := "nba" |}) eq_refl)
    as [-> _].
Defined.

Section WebSearch.
Import WebSearch.

(** X12. Without a search key, or with an empty one, [web_search] returns the
    [BRAVE_API_KEY is not set] error with [isError] and makes no request;
    with a key it makes one request, whose address ends in [?q=], the encoded
    query, [&count=] and the count as JavaScript prints the number, no
    character of the encoded query being a delimiter, and which carries the
    key in [X-Subscription-Token]. *)
Theorem web_search_request (Number : Type) (numberText : Number → string)
    (query : string) (count : Number) :
  (∀ Net fetch key net, key = None ∨ key = Some "" →
     web_search Net fetch key Number numberText query count net
     = (Return (Mcp.error_text "BRAVE_API_KEY is not set in environment variables."),
        net))
  ∧ (∀ server apiKey log, apiKey ≠ "" →
       (web_search _ (Recorder.fetchWith server) (Some apiKey) Number numberText
          query count log).2
       = log ++ [("https://api.search.brave.com/res/v1/web/search?q="
                  +:+ encodeURIComponent query +:+ "&count=" +:+ numberText count,
                  [("X-Subscription-Token", apiKey); ("Accept", "application/json")])])
  ∧ (∀ c, occursIn c (encodeURIComponent query) →
       isComponentChar c = true
       ∧ c ∉ ["/"; "?"; "#"; "&"; "="; ":"; "@"; " "]%char).
Proof.
  split; [|split; [|apply encodeURIComponent_no_delimiter]].
  - by intros Net fetch key net [->| ->].
  - intros server apiKey log Hkey. unfold web_search, Recorder.fetchWith.
    destruct apiKey as [|c apiKey]; [done|].
    destruct (server (searchUrl Number numberText query count)) as [res|msg];
      [|done].
    destruct (negb (Remote.ok res)); [done|].
    destruct (Remote.json res) as [data|msg]; [|done]. by case_decide.
Qed.

End WebSearch.

(** The default count, 5, is a whole number that JavaScript prints as [5]. *)
Lemma web_search_request_witness :
  (WebSearch.web_search _ (Recorder.fetchWith (λ _, Throw "fetch failed"))
     (Some "BSA-key") nat Js.ofNat "rocq & coq" 5 []).2
  = [("https://api.search.brave.com/res/v1/web/search?q=rocq%20%26%20coq&count=5",
      [("X-Subscription-Token", "BSA-key"); ("Accept", "application/json")])].
Proof.
  destruct (web_search_request nat Js.ofNat "rocq & coq" 5) as (_ & Hrequest & _).
  by apply (Hrequest (λ _, Throw "fetch failed") "BSA-key" []).
Defined.

End RemoteFacts.

(** ** The agent loop: the conversation and the errors *)
Module AgentConversation.
Import Agent AgentSpec AgentProtocol.

Section Conversation.
Context {Json World : Type}.
Variable create : list (MessageParam Json) → World → completion (Message Json) * World.
Variable callTool : string → Json → World → completion Mcp.CallToolResult * World.

Lemma not_oracle_call (more : list (Event Json)) (m : list (MessageParam Json)) :
  Forall (λ e, isToolCall e = true) more → OracleCall m ∉ more.
Proof.
  intros Hmore Hin. rewrite Forall_forall in Hmore.
  by specialize (Hmore _ Hin).
Qed.

(** Every oracle call in the calls of some turns sees at least the
    conversation that was there before these turns. *)
Lemma oracle_call_extends (turns : list (Turn Json))
    (seen m : list (MessageParam Json)) (e : list (Event Json)) :
  (e = [] ∨ ∃ more, e = OracleCall (seen ++ concat (turnMessages <$> turns)) :: more
                    ∧ Forall (λ e, isToolCall e = true) more) →
  OracleCall m ∈ calls seen turns ++ e → seen `prefix_of` m.
Proof.
  revert seen. induction turns as [|t turns IH]; intros seen He Hin.
  - destruct He as [->|(more & -> & Hmore)]; [by apply elem_of_nil in Hin|].
    simpl in Hin. apply elem_of_cons in Hin as [[= ->]|Hin].
    + by apply prefix_app_r.
    + destruct (not_oracle_call more m Hmore Hin).
  - simpl in Hin. apply elem_of_cons in Hin as [[= ->]|Hin]; [done|].
    rewrite <-app_assoc in Hin. apply elem_of_app in Hin as [Hin|Hin].
    { destruct (not_oracle_call _ m (toolCalls_are_tool_calls _) Hin). }
    trans (seen ++ turnMessages t); [by apply prefix_app_r|].
    apply IH; [|done].
    destruct He as [->|(more & -> & Hmore)]; [by left|right].
    exists more. by rewrite <-app_assoc.
Qed.

Lemma calls_append_only (turns : list (Turn Json))
    (seen m m' : list (MessageParam Json)) (e pre rest : list (Event Json)) :
  (e = [] ∨ ∃ more, e = OracleCall (seen ++ concat (turnMessages <$> turns)) :: more
                    ∧ Forall (λ e, isToolCall e = true) more) →
  calls seen turns ++ e = pre ++ OracleCall m :: rest →
  OracleCall m' ∈ rest →
  m `prefix_of` m' ∧ length m < length m'.
Proof.
  revert seen pre. induction turns as [|t turns IH]; intros seen pre He Heq Hin.
  - exfalso. destruct He as [->|(more & -> & Hmore)]; [by destruct pre|].
    simpl in Heq. destruct pre as [|p pre]; simpl in Heq; injection Heq as _ Heq.
    + subst rest. destruct (not_oracle_call more m' Hmore Hin).
    + destruct (not_oracle_call more m Hmore). rewrite Heq.
      apply elem_of_app. right. by left.
  - assert (e = [] ∨ ∃ more,
              e = OracleCall ((seen ++ turnMessages t)
                              ++ concat (turnMessages <$> turns)) :: more
              ∧ Forall (λ e, isToolCall e = true) more) as He'.
    { destruct He as [->|(more & -> & Hmore)]; [by left|right].
      exists more. by rewrite <-app_assoc. }
    simpl in Heq. rewrite <-app_assoc in Heq. destruct pre as [|p pre].
    + simpl in Heq. injection Heq as <- Heq. subst rest.
      apply elem_of_app in Hin as [Hin|Hin].
      { destruct (not_oracle_call _ m' (toolCalls_are_tool_calls _) Hin). }
      apply oracle_call_extends in Hin; [|done].
      destruct Hin as [k ->]. split; [rewrite <-app_assoc; by eexists|].
      rewrite !length_app. simpl. lia.
    + simpl in Heq. injection Heq as _ Heq. symmetry in Heq.
      destruct (cut_after_tool_calls _ _ _ _ _ (toolCalls_are_tool_calls _) Heq)
        as (pre' & -> & Hrest).
      by apply (IH (seen ++ turnMessages t) pre').
Qed.


Lemma conversation_length (q : string) (turns : list (Turn Json)) :
  length (conversation q turns) = 1 + 2 * length turns.
Proof.
  assert (length (concat (turnMessages <$> turns)) = 2 * length turns) as Hturns.
  { induction turns as [|t turns IH]; [done|].
    rewrite fmap_cons, concat_cons, length_app, IH. simpl. lia. }
  unfold conversation. rewrite length_cons, Hturns. lia.
Qed.

(** X14. The conversation of one query never holds more than 21 messages: the
    text of the user, and for each of at most 10 turns the assistant message
    and its tool results. *)
Theorem conversation_bounded (q : string) (w : World) :
  length (messages (processQuery create callTool q w).2) ≤ 2 * MAX_ITERATIONS + 1.
Proof.
  destruct (processQuery_run create callTool q w)
    as (turns & e & _ & _ & _ & Hleaves & Hlen).
  unfold MAX_ITERATIONS in *.
  destruct Hleaves as [->|(bs & msg & -> & Hthrow)].
  - rewrite conversation_length. destruct Hlen as [(_ & -> & _)|[_ ?]]; lia.
  - rewrite length_app, conversation_length. simpl.
    destruct Hlen as [(_ & _ & Hreturn)|[_ ?]]; [|lia].
    by rewrite Hthrow in Hreturn.
Qed.

(** The results that the loop over the requests adds come, one per request
    and in order, from a call of the tool of the request. *)
Lemma dispatch_results (us : list (ToolUse Json)) (acc : list ToolResultBlockParam)
    (w : World) (tr : list (Event Json)) (results : list ToolResultBlockParam)
    (w' : World) (tr' : list (Event Json)) :
  dispatch callTool us acc w tr = (Return results, w', tr') →
  ∃ new, results = acc ++ new
         ∧ Forall2 (λ u r, ∃ envelope w0 w1,
                      callTool (name u) (input u) w0 = (Return envelope, w1)
                      ∧ r = toolResult u envelope) us new.
Proof.
  revert acc w tr. induction us as [|u us IH]; intros acc w tr; simpl.
  - intros [= <- _ _]. exists []. by rewrite app_nil_r.
  - destruct (callTool (name u) (input u) w) as [[envelope|msg] w1] eqn:Hcall;
      [|done].
    intros (new & -> & Hnew)%IH. exists (toolResult u envelope :: new).
    rewrite <-app_assoc. split; [done|]. constructor; [|done].
    by exists envelope, w, w1.
Qed.


Lemma dispatch_throws (us : list (ToolUse Json)) (acc : list ToolResultBlockParam)
    (w : World) (tr : list (Event Json)) (msg : string)
    (w' : World) (tr' : list (Event Json)) :
  dispatch callTool us acc w tr = (Throw msg, w', tr') →
  ∃ u w0 w1, u ∈ us ∧ callTool (name u) (input u) w0 = (Throw msg, w1).
Proof.
  revert acc w tr. induction us as [|u us IH]; intros acc w tr; simpl; [done|].
  destruct (callTool (name u) (input u) w) as [[envelope|msg'] w1] eqn:Hcall.
  - intros (u' & w0 & w2 & Hin & Hthrow)%IH. exists u', w0, w2.
    split; [by right|done].
  - intros [= <- _ _]. exists u, w, w1. split; [by left|done].
Qed.

Lemma iterate_throws (n : nat) (st : State Json World) (msg : string) :
  (iterate create callTool n st).1 = Throw msg →
  (∃ msgs w0 w1, create msgs w0 = (Throw msg, w1))
  ∨ (∃ name input w0 w1, callTool name input w0 = (Throw msg, w1)).
Proof.
  revert st. induction n as [|n IH]; intros st; simpl; [done|].
  destruct (create (messages st) (world st)) as [[response|msg'] w] eqn:Hcreate.
  2: { intros [= <-]. left. by eexists _, _, _. }
  case_decide; [done|]. case_decide; [|done].
  destruct (dispatch callTool (toolUseBlocks (blocks response)) [] w _)
    as [[[results|msg'] w'] tr'] eqn:Hdispatch.
  - apply IH.
  - intros [= <-]. right.
    destruct (dispatch_throws _ _ _ _ _ _ _ Hdispatch) as (u & w0 & w1 & _ & Hthrow).
    by eexists _, _, _, _.
Qed.

(** X16. The loop throws nothing of its own.  When [processQuery] throws, the
    error is one that the oracle or a tool call threw; so when neither of
    them throws, as when tools answer their failures in envelopes,
    [processQuery] returns a text. *)
Theorem processQuery_errors_come_from_outside (q : string) (w : World) :
  (∀ msg, (processQuery create callTool q w).1 = Throw msg →
     (∃ msgs w0 w1, create msgs w0 = (Throw msg, w1))
     ∨ (∃ name input w0 w1, callTool name input w0 = (Throw msg, w1)))
  ∧ ((∀ msgs w0, ∃ response w1, create msgs w0 = (Return response, w1)) →
     (∀ name input w0, ∃ envelope w1, callTool name input w0 = (Return envelope, w1)) →
     ∃ text, (processQuery create callTool q w).1 = Return text).
Proof.
  split; [intros msg; apply iterate_throws|].
  intros Horacle Htools.
  destruct (processQuery create callTool q w).1 as [text|msg] eqn:Hout;
    [by exists text|].
  apply iterate_throws in Hout as [(msgs & w0 & w1 & Hthrow)|(n & i & w0 & w1 & Hthrow)].
  - destruct (Horacle msgs w0) as (response & w2 & Hreturn).
    by rewrite Hreturn in Hthrow.
  - destruct (Htools n i w0) as (envelope & w2 & Hreturn).
    by rewrite Hreturn in Hthrow.
Qed.

End Conversation.



Lemma processQuery_errors_come_from_outside_witness :
  ∃ text, (processQuery Scenario.relentless Scenario.serve "Add Dune" 0).1
          = Return text.
Proof.
  destruct (processQuery_errors_come_from_outside Scenario.relentless
              (Scenario.serve (W:=nat)) "Add Dune" 0) as [_ Hreturns].
  apply Hreturns.
  - intros msgs w0. by eexists _, _.
  - intros name input w0. unfold Scenario.serve. case_decide; by eexists _, _.
Defined.

End AgentConversation.

(** ** The system prompt *)
Module ClientSetupFacts.
Import ClientSetup.

Lemma join_occurs (sep x : string) (l : list string) :
  x ∈ l → ∃ before after, Js.join sep l = before +:+ x +:+ after.
Proof.
  induction l as [|y l IH]; [by intros ?%elem_of_nil|].
  intros [->|Hin]%elem_of_cons.
  - destruct l as [|z l].
    + exists "", "". by rewrite JsFacts.append_nil_r.
    + exists "", (sep +:+ Js.join sep (z :: l)). by rewrite JsFacts.join_cons.
  - destruct (IH Hin) as (before & after & Hjoin). destruct l as [|z l].
    + by apply elem_of_nil in Hin.
    + exists (y +:+ sep +:+ before), after.
      by rewrite JsFacts.join_cons, Hjoin, !JsFacts.append_assoc.
Qed.

(** X17. Every tool that the server lists is offered to the oracle and named
    in the system prompt: the tools keep their names and their order, a
    missing description becomes the empty text, and the prompt holds, for
    each tool, the line made of a dash, its name, a colon and its
    description. *)
Theorem systemPrompt_lists_every_tool {Json : Type} (mcpTools : list (McpTool Json)) :
  tool_name <$> anthropicTools mcpTools = name <$> mcpTools
  ∧ ∀ t, t ∈ mcpTools →
      ∃ before after,
        systemPrompt (anthropicTools mcpTools)
        = before +:+ ("- " +:+ name t +:+ ": " +:+ default "" (description t))
          +:+ after.
Proof.
  split.
  - unfold anthropicTools. rewrite <-list_fmap_compose. done.
  - intros t Ht. unfold systemPrompt, toolList.
    destruct (join_occurs Js.nl
                ("- " +:+ name t +:+ ": " +:+ default "" (description t))
                ((λ t, "- " +:+ tool_name t +:+ ": " +:+ tool_description t)
                   <$> anthropicTools mcpTools)) as (before & after & ->).
    + unfold anthropicTools. rewrite <-list_fmap_compose.
      apply list_elem_of_fmap. by exists t.
    + exists ("You are a helpful assistant with access to these tools:"
              +:+ Js.nl +:+ before).
      exists (after +:+ Js.nl +:+ Js.nl
              +:+ "Always prefer using the specific tool designed for a task rather than a general-purpose tool like fetch_url. For example, use get_sports_scores for sports scores, get_weather for weather, and the file tools for file operations.").
      by rewrite !JsFacts.append_assoc.
Qed.

Lemma systemPrompt_lists_every_tool_witness :
  ∃ before after,
    systemPrompt (anthropicTools
      [ {| name := "read_file"; description := Some "Read a file.";
           inputSchema := () |};
        {| name := "run_code"; description := None; inputSchema := () |} ])
    = before +:+ "- run_code: " +:+ after.
Proof.
  destruct (systemPrompt_lists_every_tool
              [ {| name := "read_file"; description := Some "Read a file.";
                   inputSchema := () |};
                {| name := "run_code"; description := None; inputSchema := () |} ])
    as [_ Hlisted].
  apply (Hlisted {| name := "run_code"; description := None; inputSchema := () |}).
  apply elem_of_cons. right. apply elem_of_cons. by left.
Defined.

End ClientSetupFacts.

(** ** The interactive session *)
Module ReplFacts.
Import Agent AgentSpec AgentProtocol Repl ReplSpec TextSpec.

Section Session.
Context {Json World : Type}.
Variable create : list (MessageParam Json) → World → completion (Message Json) * World.
Variable callTool : string → Json → World → completion Mcp.CallToolResult * World.

Lemma queries_app (l1 l2 : list (Effect Json)) :
  queries (l1 ++ l2) = queries l1 ++ queries l2.
Proof. apply omap_app. Qed.

Lemma queries_report (out : completion string) :
  queries (Json:=Json)
    match out with
    | Return answer =>
        [Log divider; Log (Js.nl +:+ "Assistant: " +:+ answer +:+ Js.nl)]
    | Throw err => [Error err]
    end = [].
Proof. by destruct out. Qed.

Lemma report_does_not_exit (out : completion string) :
  Forall (λ e : Effect Json, ∀ c, e ≠ Exit c)
    match out with
    | Return answer =>
        [Log divider; Log (Js.nl +:+ "Assistant: " +:+ answer +:+ Js.nl)]
    | Throw err => [Error err]
    end.
Proof. destruct out; by repeat constructor. Qed.

Lemma asked_cons (input : string) (inputs : list string) :
  asked (input :: inputs)
  = if decide (Js.trim input = "") then asked inputs
    else Js.trim input :: asked inputs.
Proof.
  unfold asked. rewrite fmap_cons, filter_cons.
  destruct (decide (Js.trim input = "")) as [Heq|Hne].
  - by rewrite decide_False by (by intros ?).
  - by rewrite decide_True.
Qed.

Lemma prompt_without_stop (inputs : list string) (w : World) :
  Forall (λ i, ¬ stops i) inputs →
  queries (prompt create callTool inputs w).1 = asked inputs
  ∧ Forall (λ e, ∀ c, e ≠ Exit c) (prompt create callTool inputs w).1.
Proof.
  revert w. induction inputs as [|input rest IH]; intros w Hstops.
  - split; [done|]. by repeat constructor.
  - inversion_clear Hstops as [|?? Hinput Hrest]. rewrite asked_cons. simpl.
    destruct (decide (Js.trim input = "")) as [Hblank|Hline].
    + destruct (IH w Hrest) as [Hqueries Hexit].
      destruct (prompt create callTool rest w) as [effects w'].
      simpl in *. split; [done|]. by constructor.
    + rewrite decide_False by done.
      destruct (processQuery create callTool (Js.trim input) w) as [out st].
      destruct (IH (world st) Hrest) as [Hqueries Hexit].
      destruct (prompt create callTool rest (world st)) as [effects w'].
      simpl in *. split.
      * by rewrite queries_app, queries_report, Hqueries.
      * repeat (constructor; [done|]). apply Forall_app. split; [|done].
        apply report_does_not_exit.
Qed.

Lemma prompt_with_stop (before : list string) (stop : string) (after : list string)
    (w : World) :
  Forall (λ i, ¬ stops i) before → stops stop →
  queries (prompt create callTool (before ++ stop :: after) w).1 = asked before
  ∧ ∃ effects, (prompt create callTool (before ++ stop :: after) w).1
               = effects ++ [Log "[client] Shutting down…";
                             CloseClient; CloseReadline; Exit 0].
Proof.
  intros Hbefore Hstop. revert w.
  induction Hbefore as [|input rest Hinput Hrest IH]; intros w.
  - simpl. rewrite decide_False by (by destruct Hstop as [-> | ->]).
    rewrite decide_True by done. split; [done|]. by exists [Question "You: "].
  - rewrite asked_cons. simpl.
    destruct (decide (Js.trim input = "")) as [Hblank|Hline].
    + destruct (IH w) as [Hqueries [effects Heffects]].
      destruct (prompt create callTool (rest ++ stop :: after) w) as [effects' w'].
      simpl in *. split; [done|]. exists (Question "You: " :: effects).
      by rewrite Heffects.
    + rewrite decide_False by done.
      destruct (processQuery create callTool (Js.trim input) w) as [out st].
      destruct (IH (world st)) as [Hqueries [effects Heffects]].
      destruct (prompt create callTool (rest ++ stop :: after) (world st))
        as [effects' w'].
      simpl in *. split.
      * by rewrite queries_app, queries_report, Hqueries.
      * rewrite Heffects, app_assoc. by eexists (_ :: _ :: _ :: _).
Qed.


(** A query always starts with an oracle call on its own text. *)
Lemma processQuery_first_call (q : string) (w : World) :
  ∃ rest, trace (processQuery create callTool q w).2
          = OracleCall [UserText q] :: rest.
Proof.
  destruct (processQuery_run create callTool q w)
    as (turns & e & -> & _ & He & _ & Hlen).
  destruct (calls_head [UserText q] turns e) as [Hnil|Hrest]; [|exfalso|done].
  - destruct He as [->|(more & -> & _)]; [by left|right]. by exists more.
  - apply app_eq_nil in Hnil as [Hcalls ->].
    destruct Hlen as [(_ & Hlen & _)|[? _]]; [|done].
    by destruct turns.
Qed.


End Session.



End ReplFacts.

(** ** [seedDatabase]: the ids of the seeded rows *)
Module SeedIds.
Import Seed.

Section Table.
Context {R : Type}.
Variable rowid : R → Z.

(** A table in which no row has an id above the sequence. *)
Lemma largest_seq (t : Table R) :
  Forall (λ r, (rowid r ≤ seq t)%Z) (rows t) → largest rowid t = seq t.
Proof.
  unfold largest. generalize (seq t) as s.
  induction (rows t) as [|r rs IH]; intros s Hrows; [done|].
  inversion_clear Hrows as [|?? Hr Hrs]. simpl. rewrite IH by done. lia.
Qed.

Lemma imap_shift (mks : list (Z → R)) (s : Z) :
  imap ((λ (i : nat) (mk : Z → R), mk (s + Z.of_nat i + 1)%Z) ∘ S) mks
  = imap (λ (i : nat) (mk : Z → R), mk (s + 1 + Z.of_nat i + 1)%Z) mks.
Proof.
  apply imap_ext. intros i mk _. simpl. f_equal. lia.
Qed.

(** With room for all of them, the rows inserted get the ids that follow
    the sequence, one after the other. *)
Lemma insertMany_ids (mks : list (Z → R)) (t : Table R) :
  (∀ mk id, mk ∈ mks → rowid (mk id) = id) →
  Forall (λ r, (rowid r ≤ seq t)%Z) (rows t) →
  (seq t + Z.of_nat (length mks) ≤ MAX_ROWID)%Z →
  insertMany rowid mks t
  = Some {| rows := rows t ++ imap (λ (i : nat) (mk : Z → R), mk (seq t + Z.of_nat i + 1)%Z) mks;
            seq := seq t + Z.of_nat (length mks) |}.
Proof.
  revert t. induction mks as [|mk mks IH]; intros t Hmks Hrows Hroom.
  - simpl. rewrite app_nil_r, Z.add_0_r. by destruct t.
  - simpl. unfold insert. rewrite largest_seq by done.
    destruct (Z.geb_spec (seq t) MAX_ROWID) as [Hfull|_].
    { exfalso. rewrite length_cons in Hroom. lia. }
    rewrite IH; simpl.
    + rewrite <-app_assoc. simpl. rewrite imap_shift.
      do 2 f_equal; [|lia].
      apply (f_equal (λ id, rows t ++ mk id :: _)). lia.
    + intros mk' id Hin. apply Hmks. by right.
    + apply Forall_app. split.
      * eapply Forall_impl; [exact Hrows|]. simpl. lia.
      * constructor; [|done]. rewrite Hmks by (by left). lia.
    + rewrite length_cons in Hroom. lia.
Qed.

(** Without room for all of them, an insert fails. *)
Lemma insertMany_full (mks : list (Z → R)) (t : Table R) :
  (∀ mk id, mk ∈ mks → rowid (mk id) = id) →
  Forall (λ r, (rowid r ≤ seq t)%Z) (rows t) →
  (seq t ≤ MAX_ROWID < seq t + Z.of_nat (length mks))%Z →
  insertMany rowid mks t = None.
Proof.
  revert t. induction mks as [|mk mks IH]; intros t Hmks Hrows Hroom.
  - simpl in Hroom. lia.
  - simpl. unfold insert. rewrite largest_seq by done.
    destruct (Z.geb_spec (seq t) MAX_ROWID) as [Hfull|Hfree]; [done|].
    apply IH; simpl.
    + intros mk' id Hin. apply Hmks. by right.
    + apply Forall_app. split.
      * eapply Forall_impl; [exact Hrows|]. simpl. lia.
      * constructor; [|done]. rewrite Hmks by (by left). lia.
    + rewrite length_cons in Hroom. lia.
Qed.
End Table.

Lemma seedBooks_ids (mk : Z → Book) (id : Z) :
  mk ∈ seedBooks → book_id (mk id) = id.
Proof.
  intros Hin. unfold seedBooks in Hin.
  repeat (apply elem_of_cons in Hin as [->|Hin]; [done|]).
  by apply elem_of_nil in Hin.
Qed.

Lemma seedTable_books_room (bt : Table Book) :
  rows bt = [] → (seq bt + 8 ≤ MAX_ROWID)%Z →
  seedTable book_id seedBooks bt
  = (Return (),
     {| rows := imap (λ (i : nat) (mk : Z → Book), mk (seq bt + Z.of_nat i + 1)%Z)
                  seedBooks;
        seq := seq bt + 8 |}).
Proof.
  intros Hrows Hroom. unfold seedTable, transaction.
  rewrite decide_True by (by rewrite Hrows).
  rewrite (insertMany_ids book_id seedBooks bt).
  - by rewrite Hrows.
  - intros mk id. apply seedBooks_ids.
  - by rewrite Hrows.
  - exact Hroom.
Qed.

Lemma seedTable_books_full (bt : Table Book) :
  rows bt = [] → (seq bt ≤ MAX_ROWID < seq bt + 8)%Z →
  seedTable book_id seedBooks bt = (Throw "database or disk is full", bt).
Proof.
  intros Hrows Hroom. unfold seedTable, transaction.
  rewrite decide_True by (by rewrite Hrows).
  rewrite (insertMany_full book_id seedBooks bt); [done| | |done].
  - intros mk id. apply seedBooks_ids.
  - by rewrite Hrows.
Qed.



End SeedIds.
